(** * aws-misc: the Duplicity lifecycle reconciler and the IAM certificate
      synchronizer, embedded from the two Python scripts

    - [s3_duplicity_auto_lifecycle.py]: module [Lifecycle]
    - [iam_letsencrypt_sync.py]: module [IamSync]

    Python values are modelled by the types the scripts use them at:
    strings as [string], the rule dictionaries handed out by the S3 client
    as records, the [expires] dictionary as a [gmap], exceptions as the
    [Raise] case of [result].  Calls into the cloud provider are taken from
    a record of service behaviours, and what the scripts change (the stored
    lifecycle policy, the calls issued) is threaded as explicit state. *)

From Stdlib Require Import ZArith Lia.
From stdpp Require Import base option list strings gmap.

Local Open Scope string_scope.
Local Open Scope list_scope.

(** ** Exceptions and the error monad *)

(** The exceptions the two scripts can end in.  [ClientError] stands for
    whatever the provider SDK raises from a failed call. *)
Inductive exn : Type :=
  | KeyError (key : string)
  | AttributeError
  | TypeError
  | NameError (name : string)
  | OverflowError
  | ClientError (msg : string).

Inductive result (A : Type) : Type :=
  | Ok (x : A)
  | Raise (e : exn).
Arguments Ok {A} x.
Arguments Raise {A} e.

Definition rbind {A B} (m : result A) (k : A → result B) : result B :=
  match m with
  | Ok x => k x
  | Raise e => Raise e
  end.

Notation "'try!' x ← m ; k" := (rbind m (λ x, k))
  (at level 10, x name, m at level 100, k at level 200,
   format "'try!'  x  ←  m ;  '/' k").

(** ** Python values a list can hold here: strings and (nested) lists *)
#[warnings="-register-all"]
Inductive pyval : Type :=
  | PStr (s : string)
  | PList (items : list pyval).

(** ** String helpers *)

(** [strip_prefix p s] is [Some r] exactly when [s = p +:+ r]. *)
Fixpoint strip_prefix (p s : string) : option string :=
  match p, s with
  | EmptyString, _ => Some s
  | String a p', String b s' =>
      if decide (a = b) then strip_prefix p' s' else None
  | String _ _, EmptyString => None
  end.

(** [str.startswith] *)
Definition startswith (s p : string) : bool :=
  match strip_prefix p s with
  | Some _ => true
  | None => false
  end.

Definition newline : Ascii.ascii := Ascii.ascii_of_nat 10.

(** The lazy group [(.*?)] followed by the literal [tail]: the engine tries
    the group at length 0, 1, 2, ... and stops at the first length where
    [tail] matches; [.] takes any character but a newline. *)
Fixpoint lazy_group (tail s : string) : option string :=
  if startswith s tail then Some EmptyString
  else
    match s with
    | EmptyString => None
    | String c s' =>
        if decide (c = newline) then None
        else String c <$> lazy_group tail s'
    end.

Definition slash : Ascii.ascii := Ascii.ascii_of_nat 47.

(** Whether the character [c] occurs in [s]. *)
Fixpoint contains_char (c : Ascii.ascii) (s : string) : bool :=
  match s with
  | EmptyString => false
  | String d s' => if decide (d = c) then true else contains_char c s'
  end.

(** The characters with a meaning of their own in a regular expression,
    and whether a string has none of them: a pattern made of such a string
    matches that very text and nothing else. *)
Definition regex_special : string := ".^$*+?{}[]\|()".

Definition literal_text (s : string) : bool :=
  forallb (λ c, negb (contains_char c s)) (String.list_ascii_of_string regex_special).

Module Lifecycle.

(** The parsed command line ([args]) as far as the functions read it. *)
Record args : Type := {
  duplicity_prefix : string;
  file_prefix_archive : string;
  clean : bool;
  glacier_days : Z;
  lifecycle_id_prefix : string;
  noop : bool
}.

(** The parser's defaults with an empty environment. *)
Definition default_args : args := {|
  duplicity_prefix := "duplicity/";
  file_prefix_archive := "archive/";
  clean := false;
  glacier_days := 60;
  lifecycle_id_prefix := "Duplicity-Auto-Lifecycle";
  noop := false
|}.

(** [re.match('{}(.*?)/{}'.format(args.duplicity_prefix,
    args.file_prefix_archive), s)], giving [group(1)] of the match.  The
    two configured strings are taken as literal text, which is what they
    are for the defaults and for any value without a character that is
    special in a regular expression. *)
Definition re_match_archive (a : args) (s : string) : option string :=
  match strip_prefix (duplicity_prefix a) s with
  | None => None
  | Some rest => lazy_group ("/" +:+ file_prefix_archive a) rest
  end.

(** ** Lifecycle rules *)

Record transition : Type := {
  Days : Z;
  StorageClass : string
}.

(** A rule dictionary: [rule['ID']], [rule['Filter']['Prefix']] ([None]
    when the rule has no [Filter] key or no [Prefix] key under it; the
    two are not told apart, and the [KeyError] of either is written with
    the key [Prefix]), [rule['Status']],
    [rule['Transitions']], and under [Other] whatever further keys the
    provider returned, which the script never looks at. *)
Record rule : Type := {
  ID : string;
  Filter_Prefix : option string;
  Status : string;
  Transitions : list transition;
  Other : list (string * string)
}.

#[global] Instance transition_eq_dec : EqDecision transition.
Proof. solve_decision. Defined.
#[global] Instance rule_eq_dec : EqDecision rule.
Proof. solve_decision. Defined.

(** ** archives_in_bucket *)

(** One response of [list_objects_v2]: the [CommonPrefixes] entries (the
    key is absent when there are none) and [NextContinuationToken] when
    the listing goes on. *)
Record listing : Type := {
  CommonPrefixes : option (list string);
  NextContinuationToken : option string
}.

(** What the bucket's service answers: a page per continuation token
    ([None] for the first request), and whether a [put] of a rule list is
    refused. *)
Record s3_service : Type := {
  list_objects_v2 : option string → result listing;
  put_refused : list rule → option exn
}.

(** [if(token)]: [None] and the empty string both count as no token. *)
Definition token_given (token : option string) : option string :=
  match token with
  | Some EmptyString => None
  | t => t
  end.

(** The function calls itself once per further page; [fuel] bounds the
    number of requests, and [None] means the bound was reached.  The
    recursive result is added with [append], that is as ONE element. *)
Fixpoint archives_in_bucket (fuel : nat) (svc : s3_service)
    (token : option string) : option (result (list pyval)) :=
  match fuel with
  | O => None
  | S fuel' =>
      match list_objects_v2 svc (token_given token) with
      | Raise e => Some (Raise e)
      | Ok objects =>
          match CommonPrefixes objects with
          | None => Some (Raise (KeyError "CommonPrefixes"))
          | Some plist =>
              let prefixes := PStr <$> plist in
              match NextContinuationToken objects with
              | None => Some (Ok prefixes)
              | Some next =>
                  match archives_in_bucket fuel' svc (Some next) with
                  | None => None
                  | Some (Raise e) => Some (Raise e)
                  | Some (Ok more) => Some (Ok (prefixes ++ [PList more]))
                  end
              end
          end
      end
  end.

(** ** lifecycle_update *)

(** First loop: which existing rules are carried into [newrules]. *)
Fixpoint keep_existing (a : args) (rules : list rule) (newrules : list rule)
    : result (list rule) :=
  match rules with
  | [] => Ok newrules
  | r :: rules' =>
      match Filter_Prefix r with
      | None => Raise (KeyError "Prefix")
      | Some prefix =>
          match re_match_archive a prefix with
          | Some _ =>
              if negb (startswith (ID r) (lifecycle_id_prefix a)) then
                if clean a then keep_existing a rules' newrules
                else keep_existing a rules' (newrules ++ [r])
              else keep_existing a rules' newrules
          | None => keep_existing a rules' (newrules ++ [r])
          end
      end
  end.

(** The dictionary built for one archive. *)
Definition newrule (a : args) (archive archive_name : string) : rule := {|
  ID := lifecycle_id_prefix a +:+ "-" +:+ archive_name;
  Filter_Prefix := Some archive;
  Status := "Enabled";
  Transitions := [ {| Days := glacier_days a; StorageClass := "GLACIER" |} ];
  Other := []
|}.

(** Second loop: one fresh rule per archive.  [re.match] raises
    [TypeError] on a value that is not a string, and [.group] on a failed
    match raises [AttributeError]; both are re-raised. *)
Fixpoint add_archives (a : args) (archives : list pyval)
    (newrules : list rule) : result (list rule) :=
  match archives with
  | [] => Ok newrules
  | PList _ :: _ => Raise TypeError
  | PStr archive :: archives' =>
      match re_match_archive a archive with
      | None => Raise AttributeError
      | Some archive_name =>
          add_archives a archives' (newrules ++ [newrule a archive archive_name])
      end
  end.

(** The rule computation of [lifecycle_update]: both loops, from
    [newrules = []]. *)
Definition compute_rules (a : args) (rules : list rule)
    (archives : list pyval) : result (list rule) :=
  try! kept ← keep_existing a rules [];
  add_archives a archives kept.

(** The bucket as the script sees and changes it: the rules
    [lifecycle.rules] yields (or the error of fetching them), and the
    argument of every [lifecycle.put] issued, oldest first. *)
Record bucket : Type := {
  lifecycle_rules : result (list rule);
  put_calls : list (list rule)
}.

Definition lifecycle_put (svc : s3_service) (newrules : list rule)
    (b : bucket) : result unit * bucket :=
  match put_refused svc newrules with
  | Some e =>
      (Raise e, {| lifecycle_rules := lifecycle_rules b;
                   put_calls := put_calls b ++ [newrules] |})
  | None =>
      (Ok (), {| lifecycle_rules := Ok newrules;
                 put_calls := put_calls b ++ [newrules] |})
  end.

Definition lifecycle_update (svc : s3_service) (a : args)
    (archives : list pyval) (b : bucket) : result (list rule) * bucket :=
  match lifecycle_rules b with
  | Raise e => (Raise e, b)
  | Ok rules =>
      match compute_rules a rules archives with
      | Raise e => (Raise e, b)
      | Ok newrules =>
          if negb (noop a) then
            match lifecycle_put svc newrules b with
            | (Raise e, b') => (Raise e, b')
            | (Ok _, b') => (Ok newrules, b')
            end
          else (Ok newrules, b)
      end
  end.

(** [lambda_handler] and the script's entry point: list, then update. *)
Definition lambda_handler (fuel : nat) (svc : s3_service) (a : args)
    (b : bucket) : option (result (list rule) * bucket) :=
  match archives_in_bucket fuel svc None with
  | None => None
  | Some (Raise e) => Some (Raise e, b)
  | Some (Ok archives) => Some (lifecycle_update svc a archives b)
  end.

(** ** Vocabulary of the statements *)

(** Whether the first loop carries a rule that has a filter prefix into
    [newrules]. *)
Definition carried (a : args) (r : rule) : bool :=
  match Filter_Prefix r with
  | None => false
  | Some prefix =>
      match re_match_archive a prefix with
      | Some _ =>
          negb (startswith (ID r) (lifecycle_id_prefix a)) && negb (clean a)
      | None => true
      end
  end.

(** [r] is the rule the second loop builds for the list element [v]. *)
Definition synthesized (a : args) (v : pyval) (r : rule) : Prop :=
  ∃ archive archive_name,
    v = PStr archive ∧
    re_match_archive a archive = Some archive_name ∧
    r = newrule a archive archive_name.

(** The service answers the request for [token] and its continuations
    with the pages [pages], each page but the last naming the token of the
    next. *)
Inductive serves (svc : s3_service) : option string → list (list string) → Prop :=
  | serves_last token plist :
      list_objects_v2 svc (token_given token)
        = Ok {| CommonPrefixes := Some plist; NextContinuationToken := None |} →
      serves svc token [plist]
  | serves_more token plist next pages :
      list_objects_v2 svc (token_given token)
        = Ok {| CommonPrefixes := Some plist;
                NextContinuationToken := Some next |} →
      serves svc (Some next) pages →
      serves svc token (plist :: pages).

(** The value the recursion builds from the pages: the prefixes of the
    first page, then the value for the remaining pages as one element. *)
Fixpoint nested (pages : list (list string)) : list pyval :=
  match pages with
  | [] => []
  | [plist] => PStr <$> plist
  | plist :: pages' => (PStr <$> plist) ++ [PList (nested pages')]
  end.

(** The arguments with the [--noop] flag set to [on] and all else as in
    [a]. *)
Definition with_noop (on : bool) (a : args) : args := {|
  duplicity_prefix := duplicity_prefix a;
  file_prefix_archive := file_prefix_archive a;
  clean := clean a;
  glacier_days := glacier_days a;
  lifecycle_id_prefix := lifecycle_id_prefix a;
  noop := on
|}.

(** ** Sample data of the closed examples *)

(** A service with an empty one-page listing that takes every [put]. *)
Definition accepting : s3_service := {|
  list_objects_v2 := λ _,
    Ok {| CommonPrefixes := Some []; NextContinuationToken := None |};
  put_refused := λ _, None
|}.

(** A listing of two pages, the second reached by the token ["t1"]. *)
Definition two_pages : s3_service := {|
  list_objects_v2 := λ token,
    match token with
    | None =>
        Ok {| CommonPrefixes := Some ["duplicity/x/archive/"];
              NextContinuationToken := Some "t1" |}
    | Some _ =>
        Ok {| CommonPrefixes := Some ["duplicity/y/archive/"];
              NextContinuationToken := None |}
    end;
  put_refused := λ _, None
|}.


Definition bucket_with (rules : list rule) : bucket :=
  {| lifecycle_rules := Ok rules; put_calls := [] |}.

(** A rule somebody wrote by hand: it expires objects under [prefix]. *)
Definition custom_rule (id prefix : string) : rule := {|
  ID := id;
  Filter_Prefix := Some prefix;
  Status := "Enabled";
  Transitions := [];
  Other := [("Expiration", "365")]
|}.

End Lifecycle.

Module IamSync.

(** The parsed command line as far as the functions read it. *)
Record args : Type := {
  days : Z;
  force : bool;
  livepath : string;
  path : string
}.

Definition default_args : args := {|
  days := 30;
  force := false;
  livepath := "/etc/letsencrypt/live";
  path := "/cloudfront/"
|}.

(** A [datetime] is its number of microseconds since the epoch, UTC, and
    a [timedelta] a number of microseconds. *)
Definition timedelta_days (n : Z) : Z := (n * 86400000000)%Z.

(** [datetime.min] and [datetime.max] (years 1 to 9999), and the largest
    number of days a [timedelta] holds. *)
Definition datetime_min : Z := (-62135596800000000)%Z.
Definition datetime_max : Z := 253402300799999999%Z.
Definition timedelta_max_days : Z := 999999999%Z.

(** [t - timedelta(days=n)]: building the [timedelta] raises
    [OverflowError] when [n] is beyond [timedelta_max_days] either way, and
    the subtraction raises it when the date falls outside [datetime_min]
    to [datetime_max]. *)
Definition datetime_minus_days (t n : Z) : result Z :=
  if (Z.abs n <=? timedelta_max_days)%Z then
    let r := (t - timedelta_days n)%Z in
    if ((datetime_min <=? r) && (r <=? datetime_max))%Z then Ok r
    else Raise OverflowError
  else Raise OverflowError.

(** One entry of [ServerCertificateMetadataList] and one response of
    [list_server_certificates]; [Marker] is present when the listing goes
    on. *)
Record certdata : Type := {
  ServerCertificateName : string;
  Expiration : Z
}.

Record response : Type := {
  ServerCertificateMetadataList : list certdata;
  Marker : option string
}.

(** What the IAM service and the clock answer: a page of certificates per
    path prefix and marker, whether deleting a name fails, whether
    uploading a name fails (reading its three files included), and the
    time at the k-th reading of the clock. *)
Record iam_service : Type := {
  list_server_certificates : string → option string → result response;
  delete_server_certificate : string → option exn;
  upload_server_certificate : string → option exn;
  utcnow : nat → Z
}.

(** One directory entry of the live path: whether it is a directory and
    which of the three files it holds. *)
Record candidate : Type := {
  is_dir : bool;
  has_cert : bool;
  has_chain : bool;
  has_privkey : bool
}.

(** Calls of [iam_delete_cert] and [iam_upload_cert], by certificate
    name. *)
Inductive call : Type :=
  | Delete (name : string)
  | Upload (name : string).

#[global] Instance call_eq_dec : EqDecision call.
Proof. solve_decision. Defined.

(** What a run has done so far: the calls issued, oldest first, and how
    often the clock was read. *)
Record world : Type := {
  calls : list call;
  clock_reads : nat
}.

Definition fresh : world := {| calls := []; clock_reads := 0 |}.

(** [if(marker)] *)
Definition marker_given (marker : option string) : option string :=
  match marker with
  | Some EmptyString => None
  | m => m
  end.

(** [dictmerge(x, y)]: a copy of [x] updated with [y], so [y] wins. *)
Definition dictmerge (x y : gmap string Z) : gmap string Z := y ∪ x.

(** The module defines and imports no [list_certificates]: evaluating
    the name raises [NameError], whatever the argument. *)
Definition list_certificates (marker : string) : result (gmap string Z) :=
  Raise (NameError "list_certificates").

(** The [for] loop filling [expires]: a later entry of a name replaces an
    earlier one. *)
Definition record_expirations (certs : list certdata)
    (expires : gmap string Z) : gmap string Z :=
  foldl (λ e certdata,
           <[ServerCertificateName certdata := Expiration certdata]> e)
        expires certs.

Definition certificate_expirations (svc : iam_service) (a : args)
    (marker : option string) : result (gmap string Z) :=
  try! response ← list_server_certificates svc (path a) (marker_given marker);
  let expires := record_expirations (ServerCertificateMetadataList response) ∅ in
  match Marker response with
  | Some m =>
      try! more ← list_certificates m;
      Ok (dictmerge expires more)
  | None => Ok expires
  end.

(** [letsencrypt_certnames]: the directories of the live path that hold
    all three files.  The live path is a finite map from entry names to
    entries, so [scandir] yields each name once. *)
Definition letsencrypt_certnames (live : gmap string candidate) : list string :=
  (map_to_list live) ≫= λ '(name, c),
    if is_dir c then
      if has_cert c && has_chain c && has_privkey c then [name] else []
    else [].

Definition log (c : call) (w : world) : world :=
  {| calls := calls w ++ [c]; clock_reads := clock_reads w |}.

Definition iam_delete_cert (svc : iam_service) (name : string) (w : world)
    : result unit * world :=
  match delete_server_certificate svc name with
  | Some e => (Raise e, log (Delete name) w)
  | None => (Ok (), log (Delete name) w)
  end.

Definition iam_upload_cert (svc : iam_service) (name : string) (w : world)
    : result unit * world :=
  match upload_server_certificate svc name with
  | Some e => (Raise e, log (Upload name) w)
  | None => (Ok (), log (Upload name) w)
  end.

Definition replace_cert (svc : iam_service) (certname : string) (w : world)
    : result unit * world :=
  match iam_delete_cert svc certname w with
  | (Raise e, w') => (Raise e, w')
  | (Ok _, w') => iam_upload_cert svc certname w'
  end.

(** [datetime.now(timezone.utc)] *)
Definition datetime_now (svc : iam_service) (w : world) : Z * world :=
  (utcnow svc (clock_reads w),
   {| calls := calls w; clock_reads := S (clock_reads w) |}).

(** The body of the loop of [iam_sync_certs] for one name. *)
Definition sync_cert (svc : iam_service) (a : args) (expires : gmap string Z)
    (certname : string) (w : world) : result unit * world :=
  match expires !! certname with
  | Some expiration =>
      match datetime_minus_days expiration (days a) with
      | Raise e => (Raise e, w)
      | Ok replacedate =>
          let '(now, w1) := datetime_now svc w in
          if (replacedate <=? now)%Z then replace_cert svc certname w1
          else if force a then replace_cert svc certname w1
          else (Ok (), w1)
      end
  | None => iam_upload_cert svc certname w
  end.

Fixpoint sync_certs (svc : iam_service) (a : args) (expires : gmap string Z)
    (certnames : list string) (w : world) : result unit * world :=
  match certnames with
  | [] => (Ok (), w)
  | certname :: certnames' =>
      match sync_cert svc a expires certname w with
      | (Raise e, w') => (Raise e, w')
      | (Ok _, w') => sync_certs svc a expires certnames' w'
      end
  end.

Definition iam_sync_certs (svc : iam_service) (a : args)
    (live : gmap string candidate) (w : world) : result unit * world :=
  let certnames := letsencrypt_certnames live in
  match certificate_expirations svc a None with
  | Raise e => (Raise e, w)
  | Ok expires => sync_certs svc a expires certnames w
  end.

(** ** Vocabulary of the statements *)

Definition call_name (c : call) : string :=
  match c with
  | Delete name | Upload name => name
  end.

(** The calls of a log that are about [name], in order. *)
Definition calls_for (name : string) (cs : list call) : list call :=
  List.filter (λ c, bool_decide (call_name c = name)) cs.

(** Whether a pass through the loop body that ends without an error
    reads the clock for [certname]: it does when the name has a remote
    entry. *)
Definition reads_clock (expires : gmap string Z) (certname : string) : bool :=
  bool_decide (is_Some (expires !! certname)).

(** How often the clock has been read once the names [done_names] have
    been gone through without an error. *)
Definition clock_reads_after (expires : gmap string Z)
    (done_names : list string) : nat :=
  length (List.filter (reads_clock expires) done_names).

(** A log in which every delete is directly followed by the upload of
    the same name. *)
Inductive settled : list call → Prop :=
  | settled_nil : settled []
  | settled_upload name cs : settled cs → settled (Upload name :: cs)
  | settled_replace name cs :
      settled cs → settled (Delete name :: Upload name :: cs).

(** What the loop over [certnames] can issue: calls about these names
    only, a delete only for a name with a remote entry, and an upload only
    for a name without one or one whose delete is not refused. *)
Definition may_issue (svc : iam_service) (expires : gmap string Z)
    (certnames : list string) (c : call) : Prop :=
  match c with
  | Delete name => name ∈ certnames ∧ is_Some (expires !! name)
  | Upload name =>
      name ∈ certnames ∧
      (expires !! name = None ∨ delete_server_certificate svc name = None)
  end.

(** ** Sample data of the closed examples *)

(** One remote certificate [a] that expires [ahead] microseconds after
    the clock's (constant) reading of 100; every call succeeds. *)
Definition one_remote (ahead : Z) : iam_service := {|
  list_server_certificates := λ _ _,
    Ok {| ServerCertificateMetadataList :=
            [ {| ServerCertificateName := "a";
                 Expiration := (100 + ahead)%Z |} ];
          Marker := None |};
  delete_server_certificate := λ _, None;
  upload_server_certificate := λ _, None;
  utcnow := λ _, 100%Z
|}.

(** The same, but the service refuses every delete. *)
Definition delete_refused (ahead : Z) : iam_service := {|
  list_server_certificates := list_server_certificates (one_remote ahead);
  delete_server_certificate := λ _, Some (ClientError "DeleteConflict");
  upload_server_certificate := λ _, None;
  utcnow := λ _, 100%Z
|}.

(** A remote listing that goes on after its first page. *)
Definition truncated : iam_service := {|
  list_server_certificates := λ _ marker,
    match marker with
    | None =>
        Ok {| ServerCertificateMetadataList :=
                [ {| ServerCertificateName := "a"; Expiration := 100%Z |} ];
              Marker := Some "m1" |}
    | Some _ =>
        Ok {| ServerCertificateMetadataList :=
                [ {| ServerCertificateName := "b"; Expiration := 200%Z |} ];
              Marker := None |}
    end;
  delete_server_certificate := λ _, None;
  upload_server_certificate := λ _, None;
  utcnow := λ _, 100%Z
|}.

Definition valid_dir : candidate :=
  {| is_dir := true; has_cert := true; has_chain := true;
     has_privkey := true |}.

(** The live path with the certificate directories [a] and [b]. *)
Definition live_a_b : gmap string candidate :=
  <["a" := valid_dir]> (<["b" := valid_dir]> ∅).

End IamSync.

(** * Facts about the string helpers *)

Lemma strip_prefix_app (p r : string) : strip_prefix p (p +:+ r) = Some r.
Proof.
  induction p as [|c p IH]; simpl; [done|].
  case_decide; [exact IH|congruence].
Qed.

Lemma strip_prefix_Some (p s r : string) :
  strip_prefix p s = Some r → s = p +:+ r.
Proof.
  revert s. induction p as [|c p IH]; intros s; simpl.
  - by intros [= ->].
  - destruct s as [|d s]; [done|].
    case_decide as Hcd; [|done].
    intros Hs. subst d. change (String c s = String c (p +:+ r)).
    f_equal. by apply IH.
Qed.

Lemma startswith_app (p r : string) : startswith (p +:+ r) p = true.
Proof. unfold startswith. by rewrite strip_prefix_app. Qed.

Lemma append_inj_l (p x y : string) : p +:+ x = p +:+ y → x = y.
Proof.
  intros Heq.
  assert (H : strip_prefix p (p +:+ x) = Some y)
    by (rewrite Heq; apply strip_prefix_app).
  rewrite strip_prefix_app in H. congruence.
Qed.

Lemma startswith_true (s p : string) :
  startswith s p = true → ∃ r, s = p +:+ r.
Proof.
  unfold startswith. destruct (strip_prefix p s) eqn:E; [|done].
  intros _. eexists. by apply strip_prefix_Some.
Qed.

(** * The lifecycle reconciler *)
Module LifecycleFacts.
Import Lifecycle.

Section rules.
Context (a : args).

(** ** The two loops, as a filter and a pointwise relation *)

Lemma keep_existing_Ok rules acc out :
  keep_existing a rules acc = Ok out →
  out = acc ++ List.filter (carried a) rules ∧
  Forall (λ r, is_Some (Filter_Prefix r)) rules.
Proof.
  revert acc. induction rules as [|r rules IH]; intros acc; simpl.
  - intros [= <-]. by rewrite app_nil_r.
  - unfold carried at 1.
    destruct (Filter_Prefix r) as [prefix|] eqn:Hp; [|done].
    destruct (re_match_archive a prefix);
      [destruct (startswith (ID r) (lifecycle_id_prefix a));
       destruct (clean a)|]; simpl;
      intros [-> HF]%IH; (split; [|by constructor; [rewrite Hp|]]);
      by rewrite <- ?app_assoc.
Qed.

Lemma keep_existing_total rules acc :
  Forall (λ r, is_Some (Filter_Prefix r)) rules →
  keep_existing a rules acc = Ok (acc ++ List.filter (carried a) rules).
Proof.
  intros HF. revert acc.
  induction HF as [|r rules [prefix Hp] _ IH]; intros acc; simpl.
  - by rewrite app_nil_r.
  - unfold carried at 1. rewrite Hp.
    destruct (re_match_archive a prefix);
      [destruct (startswith (ID r) (lifecycle_id_prefix a));
       destruct (clean a)|]; simpl; rewrite IH; by rewrite <- ?app_assoc.
Qed.

Lemma add_archives_Ok archives acc out :
  add_archives a archives acc = Ok out →
  ∃ syn, Forall2 (synthesized a) archives syn ∧ out = acc ++ syn.
Proof.
  revert acc. induction archives as [|v archives IH]; intros acc; simpl.
  - intros [= <-]. exists []. by rewrite app_nil_r.
  - destruct v as [archive|]; [|done].
    destruct (re_match_archive a archive) as [name|] eqn:Hm; [|done].
    intros (syn & HF & ->)%IH.
    exists (newrule a archive name :: syn). split.
    + constructor; [by exists archive, name|done].
    + by rewrite <- app_assoc.
Qed.

Lemma add_archives_total archives syn acc :
  Forall2 (synthesized a) archives syn →
  add_archives a archives acc = Ok (acc ++ syn).
Proof.
  intros HF. revert acc.
  induction HF as [|v r archives syn (archive & name & -> & Hm & ->) _ IH];
    intros acc; simpl.
  - by rewrite app_nil_r.
  - rewrite Hm, IH. by rewrite <- app_assoc.
Qed.

Lemma compute_rules_Ok rules archives out :
  compute_rules a rules archives = Ok out →
  Forall (λ r, is_Some (Filter_Prefix r)) rules ∧
  ∃ syn, Forall2 (synthesized a) archives syn ∧
         out = List.filter (carried a) rules ++ syn.
Proof.
  unfold compute_rules.
  destruct (keep_existing a rules []) as [kept|] eqn:Hk; simpl; [|done].
  apply keep_existing_Ok in Hk as [-> HF]. simpl.
  intros (syn & Hsyn & ->)%add_archives_Ok. eauto.
Qed.

Lemma compute_rules_total rules archives syn :
  Forall (λ r, is_Some (Filter_Prefix r)) rules →
  Forall2 (synthesized a) archives syn →
  compute_rules a rules archives = Ok (List.filter (carried a) rules ++ syn).
Proof.
  intros HF Hsyn. unfold compute_rules.
  rewrite (keep_existing_total _ _ HF). simpl.
  by apply add_archives_total.
Qed.

Lemma carried_newrule archive name :
  re_match_archive a archive = Some name →
  carried a (newrule a archive name) = false.
Proof.
  intros Hm. unfold carried. simpl. rewrite Hm.
  by rewrite startswith_app.
Qed.

Lemma carried_synthesized v r : synthesized a v r → carried a r = false.
Proof. intros (archive & name & _ & Hm & ->). by apply carried_newrule. Qed.


Lemma synthesized_elem_of archives syn r :
  Forall2 (synthesized a) archives syn → r ∈ syn →
  ∃ v, v ∈ archives ∧ synthesized a v r.
Proof.
  induction 1 as [|v r' archives syn Hv _ IH]; intros Hr.
  - by apply elem_of_nil in Hr.
  - apply elem_of_cons in Hr as [->|Hr].
    + exists v. split; [left|done].
    + destruct (IH Hr) as (v' & Hin & Hs). exists v'. split; [by right|done].
Qed.

Lemma synthesized_zip archives names :
  Forall2 (λ archive name, re_match_archive a archive = Some name)
          archives names →
  Forall2 (synthesized a) (PStr <$> archives)
          (zip_with (newrule a) archives names).
Proof.
  induction 1 as [|archive name archives names Hm _ IH]; simpl.
  - constructor.
  - constructor; [by exists archive, name|exact IH].
Qed.

Lemma zip_newrule_ids archives names :
  length archives = length names →
  ID <$> zip_with (newrule a) archives names
    = (λ name, lifecycle_id_prefix a +:+ "-" +:+ name) <$> names.
Proof.
  revert names. induction archives as [|archive archives IH];
    intros [|name names]; simpl; try done.
  intros [= Hlen]. by rewrite IH.
Qed.

End rules.

Lemma elem_of_filter_bool {A} (f : A → bool) (l : list A) (x : A) :
  x ∈ List.filter f l ↔ x ∈ l ∧ f x = true.
Proof. rewrite !list_elem_of_In. apply filter_In. Qed.

Lemma filter_bool_idemp {A} (f : A → bool) (l : list A) :
  List.filter f (List.filter f l) = List.filter f l.
Proof.
  induction l as [|x l IH]; simpl; [done|].
  destruct (f x) eqn:Hx; simpl; [rewrite Hx; by f_equal|done].
Qed.

Lemma filter_bool_none {A} (f : A → bool) (l : list A) :
  Forall (λ x, f x = false) l → List.filter f l = [].
Proof. induction 1 as [|x l Hx _ IH]; simpl; [done|]. by rewrite Hx. Qed.

(** What a returning [lifecycle_update] has computed. *)
Lemma lifecycle_update_Ok svc a archives b b' out :
  lifecycle_update svc a archives b = (Ok out, b') →
  ∃ rules, lifecycle_rules b = Ok rules ∧
           compute_rules a rules archives = Ok out.
Proof.
  unfold lifecycle_update.
  destruct (lifecycle_rules b) as [rules|]; [|done].
  destruct (compute_rules a rules archives) as [newrules|] eqn:Hc; [|done].
  destruct (negb (noop a)).
  - destruct (lifecycle_put svc newrules b) as [[[]|] b'']; [|done].
    intros [= <- <-]. eauto.
  - intros [= <- <-]. eauto.
Qed.

(** [lifecycle_update] returns whenever every existing rule has a filter
    prefix, every archive carries a name, and the service takes the new
    rules. *)
Lemma lifecycle_update_returns svc a archives names b rules :
  lifecycle_rules b = Ok rules →
  Forall (λ r, is_Some (Filter_Prefix r)) rules →
  Forall2 (λ archive name, re_match_archive a archive = Some name)
          archives names →
  (∀ newrules, put_refused svc newrules = None) →
  ∃ b', lifecycle_update svc a (PStr <$> archives) b
        = (Ok (List.filter (carried a) rules
               ++ zip_with (newrule a) archives names), b').
Proof.
  intros Hb HF Hm Hput. unfold lifecycle_update. rewrite Hb.
  rewrite (compute_rules_total a rules _ _ HF (synthesized_zip a _ _ Hm)).
  destruct (negb (noop a)); [|eauto].
  unfold lifecycle_put. rewrite Hput. eauto.
Qed.

(** ** Foreign, unrelated and tool-managed rules *)



(** C10.  An existing rule whose filter prefix matches the archive-path
    pattern and whose identifier starts with the configured identifier
    prefix is not among the rules the first loop keeps, whatever [clean]
    is; and when its filter prefix is not one of the archives handed in,
    it is not in the rule set [lifecycle_update] returns. *)
Theorem managed_rule_dropped svc a archives b b' rules out r prefix :
  lifecycle_update svc a archives b = (Ok out, b') →
  lifecycle_rules b = Ok rules →
  Filter_Prefix r = Some prefix →
  is_Some (re_match_archive a prefix) →
  startswith (ID r) (lifecycle_id_prefix a) = true →
  (∃ kept, keep_existing a rules [] = Ok kept ∧ r ∉ kept) ∧
  (PStr prefix ∉ archives → r ∉ out).
Proof.
  intros Hrun Hb Hp [name Hm] Hid.
  apply lifecycle_update_Ok in Hrun as (rules' & Hb' & Hc).
  assert (rules' = rules) as -> by congruence.
  apply compute_rules_Ok in Hc as (HF & syn & Hsyn & ->).
  assert (Hcar : carried a r = false).
  { unfold carried. by rewrite Hp, Hm, Hid. }
  assert (Hkept : r ∉ List.filter (carried a) rules).
  { intros [_ ?]%elem_of_filter_bool. congruence. }
  split.
  - exists (List.filter (carried a) rules). split; [|done].
    by rewrite (keep_existing_total a rules [] HF).
  - intros Hgone [Hin|Hin]%elem_of_app; [done|].
    destruct (synthesized_elem_of a _ _ _ Hsyn Hin)
      as (v & Hv & archive & name' & -> & _ & ->).
    simpl in Hp. by simplify_eq.
Qed.

Lemma managed_rule_dropped_witness :
  lifecycle_update accepting default_args [PStr "duplicity/x/archive/"]
    (bucket_with [newrule default_args "duplicity/old/archive/" "old"])
  = (Ok [newrule default_args "duplicity/x/archive/" "x"],
     {| lifecycle_rules := Ok [newrule default_args "duplicity/x/archive/" "x"];
        put_calls := [[newrule default_args "duplicity/x/archive/" "x"]] |})
  ∧ newrule default_args "duplicity/old/archive/" "old"
    ∉ [newrule default_args "duplicity/x/archive/" "x"].
Proof.
  split; [reflexivity|].
  assert (Hm : is_Some (re_match_archive default_args "duplicity/old/archive/"))
    by by eexists.
  destruct (managed_rule_dropped accepting default_args
              [PStr "duplicity/x/archive/"]
              (bucket_with [newrule default_args "duplicity/old/archive/" "old"])
              _ _ _ (newrule default_args "duplicity/old/archive/" "old")
              "duplicity/old/archive/" eq_refl eq_refl eq_refl Hm eq_refl)
    as [_ Hgone].
  apply Hgone.
  intros [Heq|Hin%elem_of_nil]%elem_of_cons; [discriminate Heq|done].
Defined.

(** ** Idempotence *)

(** The rules synthesized in a run are dropped by the first loop of the
    next run, and the rules the first loop kept are kept again. *)
Lemma compute_rules_stable a rules archives out :
  compute_rules a rules archives = Ok out →
  List.filter (carried a) out = List.filter (carried a) rules ∧
  Forall (λ r, is_Some (Filter_Prefix r)) out.
Proof.
  intros (HF & syn & Hsyn & ->)%compute_rules_Ok.
  assert (Hnone : Forall (λ r, carried a r = false) syn).
  { apply Forall_forall. intros r Hr.
    destruct (synthesized_elem_of a _ _ _ Hsyn Hr) as (v & _ & Hv).
    by eapply carried_synthesized. }
  split.
  - by rewrite List.filter_app, filter_bool_idemp,
      (filter_bool_none _ _ Hnone), app_nil_r.
  - apply Forall_app. split.
    + apply Forall_forall. intros r [Hr _]%elem_of_filter_bool.
      by eapply Forall_forall in HF.
    + apply Forall_forall. intros r Hr.
      destruct (synthesized_elem_of a _ _ _ Hsyn Hr)
        as (v & _ & archive & name & _ & _ & ->).
      by eexists.
Qed.

Lemma compute_rules_again a rules archives out :
  compute_rules a rules archives = Ok out →
  compute_rules a out archives = Ok out.
Proof.
  intros Hc. destruct (compute_rules_stable _ _ _ _ Hc) as [Hkept HF].
  apply compute_rules_Ok in Hc as (_ & syn & Hsyn & Hout).
  rewrite (compute_rules_total a out archives syn HF Hsyn).
  by rewrite Hkept, <- Hout.
Qed.

(** C3.  Computing the rules again from the computed rule set, with the
    same archives and the same arguments, gives the same rule set; and on
    the bucket, a second run of [lifecycle_update] right after a run that
    applied its rules returns that rule set again and stores it again. *)
Theorem reconciliation_idempotent a rules archives out :
  compute_rules a rules archives = Ok out →
  compute_rules a out archives = Ok out ∧
  ∀ svc b b1,
    lifecycle_rules b = Ok rules →
    noop a = false →
    lifecycle_update svc a archives b = (Ok out, b1) →
    lifecycle_update svc a archives b1
    = (Ok out, {| lifecycle_rules := Ok out;
                  put_calls := put_calls b1 ++ [out] |}).
Proof.
  intros Hc. pose proof (compute_rules_again _ _ _ _ Hc) as Hc2.
  split; [done|].
  intros svc b b1 Hb Hnoop.
  unfold lifecycle_update at 1. rewrite Hb, Hc, Hnoop. simpl.
  unfold lifecycle_put.
  destruct (put_refused svc out) eqn:Hput; [done|].
  intros [= <-]. unfold lifecycle_update. simpl.
  rewrite Hc2, Hnoop. simpl. unfold lifecycle_put. by rewrite Hput.
Qed.

Lemma reconciliation_idempotent_witness :
  compute_rules default_args
    [custom_rule "mine" "duplicity/x/archive/";
     newrule default_args "duplicity/old/archive/" "old"]
    [PStr "duplicity/x/archive/"]
  = Ok [custom_rule "mine" "duplicity/x/archive/";
        newrule default_args "duplicity/x/archive/" "x"]
  ∧ compute_rules default_args
      [custom_rule "mine" "duplicity/x/archive/";
       newrule default_args "duplicity/x/archive/" "x"]
      [PStr "duplicity/x/archive/"]
    = Ok [custom_rule "mine" "duplicity/x/archive/";
          newrule default_args "duplicity/x/archive/" "x"].
Proof.
  split; [reflexivity|].
  apply (reconciliation_idempotent default_args
           [custom_rule "mine" "duplicity/x/archive/";
            newrule default_args "duplicity/old/archive/" "old"]
           [PStr "duplicity/x/archive/"]).
  reflexivity.
Defined.

(** ** The synthesized rules *)

(** C7 as stated fails: the identifier of the rule built for the archive
    named [x] is not the identifier prefix followed by [x]. *)
Lemma identifier_is_prefix_then_name_counterexample :
  re_match_archive default_args "duplicity/x/archive/" = Some "x" ∧
  ∃ r b',
    lifecycle_update accepting default_args [PStr "duplicity/x/archive/"]
      (bucket_with []) = (Ok [r], b') ∧
    ID r = "Duplicity-Auto-Lifecycle-x" ∧
    ID r ≠ lifecycle_id_prefix default_args +:+ "x".
Proof.
  split; [reflexivity|].
  eexists _, _. split; [reflexivity|]. split; [reflexivity|]. discriminate.
Qed.

(** C7, amended.  The rule set [lifecycle_update] returns is the kept
    existing rules followed by one rule per element of the archive list,
    in order; the rule of an archive has as identifier the configured
    identifier prefix, a hyphen, and the archive's embedded name, as filter
    prefix the archive itself, status [Enabled], and as only transition the
    one to [GLACIER] at the configured number of days.  For the archive
    ["duplicity/archive/x/archive/"], no existing rules and 60 days this is
    the one rule moving that prefix to [GLACIER] at day 60. *)
Theorem one_rule_per_archive :
  (∀ svc a archives b b' out,
     lifecycle_update svc a archives b = (Ok out, b') →
     ∃ rules kept syn,
       lifecycle_rules b = Ok rules ∧
       keep_existing a rules [] = Ok kept ∧
       out = kept ++ syn ∧
       Forall2 (λ v r, ∃ archive name,
                  v = PStr archive ∧
                  re_match_archive a archive = Some name ∧
                  ID r = lifecycle_id_prefix a +:+ "-" +:+ name ∧
                  Filter_Prefix r = Some archive ∧
                  Status r = "Enabled" ∧
                  Transitions r = [ {| Days := glacier_days a;
                                       StorageClass := "GLACIER" |} ])
               archives syn) ∧
  ∃ b',
    lifecycle_update accepting default_args
      [PStr "duplicity/archive/x/archive/"] (bucket_with [])
    = (Ok [ {| ID := "Duplicity-Auto-Lifecycle-archive/x";
               Filter_Prefix := Some "duplicity/archive/x/archive/";
               Status := "Enabled";
               Transitions := [ {| Days := 60; StorageClass := "GLACIER" |} ];
               Other := [] |} ], b').
Proof.
  split; [|by eexists].
  intros svc a archives b b' out (rules & Hb & Hc)%lifecycle_update_Ok.
  apply compute_rules_Ok in Hc as (HF & syn & Hsyn & ->).
  exists rules, (List.filter (carried a) rules), syn.
  split; [done|]. split; [by rewrite (keep_existing_total a rules [] HF)|].
  split; [done|].
  eapply Forall2_impl; [exact Hsyn|].
  intros v r (archive & name & -> & Hm & ->). by exists archive, name.
Qed.

Lemma one_rule_per_archive_witness :
  ∃ rules kept syn,
    lifecycle_rules (bucket_with [custom_rule "logs" "logs/"]) = Ok rules ∧
    keep_existing default_args rules [] = Ok kept ∧
    [custom_rule "logs" "logs/";
     newrule default_args "duplicity/x/archive/" "x"] = kept ++ syn ∧
    length syn = 1%nat.
Proof.
  destruct one_rule_per_archive as [Hgen _].
  destruct (Hgen accepting default_args [PStr "duplicity/x/archive/"]
              (bucket_with [custom_rule "logs" "logs/"]) _ _ eq_refl)
    as (rules & kept & syn & Hb & Hk & Hout & Hsyn).
  exists rules, kept, syn. repeat split; try done.
  by rewrite <- (Forall2_length _ _ _ Hsyn).
Defined.

(** ** Applying the rules *)

(** C8.  With [noop] set, [lifecycle_update] returns what the rule
    computation gives and leaves the bucket as it was: the stored rules
    are unchanged and no [put] is issued.  With [noop] unset and a rule
    set computed, exactly one [put] is issued, with the computed rule set,
    and when the service takes it the rule set is stored and returned. *)
Theorem noop_suppresses_put svc a archives b :
  (noop a = true →
   lifecycle_update svc a archives b
   = (try! rules ← lifecycle_rules b; compute_rules a rules archives, b)) ∧
  (noop a = false →
   ∀ rules newrules,
     lifecycle_rules b = Ok rules →
     compute_rules a rules archives = Ok newrules →
     put_calls (lifecycle_update svc a archives b).2
       = put_calls b ++ [newrules] ∧
     (put_refused svc newrules = None →
      lifecycle_update svc a archives b
      = (Ok newrules, {| lifecycle_rules := Ok newrules;
                         put_calls := put_calls b ++ [newrules] |}))).
Proof.
  split.
  - intros Hnoop. unfold lifecycle_update. rewrite Hnoop. simpl.
    destruct (lifecycle_rules b) as [rules|]; simpl; [|done].
    by destruct (compute_rules a rules archives).
  - intros Hnoop rules newrules Hb Hc.
    unfold lifecycle_update, lifecycle_put. rewrite Hb, Hc, Hnoop. simpl.
    destruct (put_refused svc newrules); split; try done.
Qed.

Lemma noop_suppresses_put_witness :
  lifecycle_update accepting
    {| duplicity_prefix := "duplicity/"; file_prefix_archive := "archive/";
       clean := false; glacier_days := 60;
       lifecycle_id_prefix := "Duplicity-Auto-Lifecycle"; noop := true |}
    [PStr "duplicity/x/archive/"]
    (bucket_with [custom_rule "logs" "logs/"])
  = (Ok [custom_rule "logs" "logs/";
         newrule default_args "duplicity/x/archive/" "x"],
     bucket_with [custom_rule "logs" "logs/"])
  ∧ put_calls
      (lifecycle_update accepting default_args [PStr "duplicity/x/archive/"]
         (bucket_with [custom_rule "logs" "logs/"])).2
    = [[custom_rule "logs" "logs/";
        newrule default_args "duplicity/x/archive/" "x"]].
Proof.
  split.
  - apply (noop_suppresses_put accepting
             {| duplicity_prefix := "duplicity/";
                file_prefix_archive := "archive/";
                clean := false; glacier_days := 60;
                lifecycle_id_prefix := "Duplicity-Auto-Lifecycle";
                noop := true |}). reflexivity.
  - destruct (noop_suppresses_put accepting default_args
                [PStr "duplicity/x/archive/"]
                (bucket_with [custom_rule "logs" "logs/"])) as [_ Hput].
    destruct (Hput eq_refl _ _ eq_refl eq_refl) as [Hcalls _].
    exact Hcalls.
Defined.

(** ** The rebuilt rule set *)

(** C1 as stated fails: an existing rule on an unrelated prefix that
    already carries the identifier of a synthesized rule is kept, and the
    returned rule set has that identifier twice. *)
Lemma duplicate_identifier_counterexample :
  Forall2 (λ archive name, re_match_archive default_args archive = Some name)
          ["duplicity/x/archive/"] ["x"] ∧
  NoDup ["x"] ∧
  ∃ out b',
    lifecycle_update accepting default_args [PStr "duplicity/x/archive/"]
      (bucket_with [custom_rule "Duplicity-Auto-Lifecycle-x" "logs/"])
    = (Ok out, b') ∧
    ¬ NoDup (ID <$> out).
Proof.
  split; [by repeat constructor|].
  split; [apply NoDup_singleton|].
  eexists _, _. split; [reflexivity|].
  intros [Hnin _]%NoDup_cons. apply Hnin. left.
Qed.

Lemma filter_ids_NoDup (f : rule → bool) (rules : list rule) :
  NoDup (ID <$> rules) → NoDup (ID <$> List.filter f rules).
Proof.
  induction rules as [|r rules IH]; simpl; [done|].
  intros [Hnin Hnd]%NoDup_cons. destruct (f r); [|by apply IH].
  simpl. apply NoDup_cons. split; [|by apply IH].
  intros (r' & Hid & [Hin _]%elem_of_filter_bool)%list_elem_of_fmap.
  apply Hnin. apply list_elem_of_fmap. eauto.
Qed.

(** C1, amended.  When [lifecycle_update] returns for archives whose
    embedded names are pairwise distinct, the rule set is the kept
    existing rules (the foreign ones unless [clean], and the unrelated
    ones) followed by the rules synthesized for the archives, in order;
    the rule of each archive occurs in it exactly once; and no two
    synthesized rules have the same identifier.  No two rules of the
    whole set have the same identifier when, in addition, the existing
    rules have pairwise distinct identifiers and no kept rule carries the
    identifier of a synthesized one. *)
Theorem rebuilt_rule_set svc a archives names b b' rules out :
  lifecycle_update svc a (PStr <$> archives) b = (Ok out, b') →
  lifecycle_rules b = Ok rules →
  Forall2 (λ archive name, re_match_archive a archive = Some name)
          archives names →
  NoDup names →
  out = List.filter (carried a) rules ++ zip_with (newrule a) archives names ∧
  (∀ i archive name,
     archives !! i = Some archive → names !! i = Some name →
     count_occ rule_eq_dec out (newrule a archive name) = 1%nat) ∧
  NoDup (ID <$> zip_with (newrule a) archives names) ∧
  (NoDup (ID <$> rules) →
   (∀ r name, r ∈ rules → carried a r = true → name ∈ names →
              ID r ≠ lifecycle_id_prefix a +:+ "-" +:+ name) →
   NoDup (ID <$> out)).
Proof.
  intros Hrun Hb Hm Hnd.
  apply lifecycle_update_Ok in Hrun as (rules' & Hb' & Hc).
  assert (rules' = rules) as -> by congruence.
  pose proof (compute_rules_Ok _ _ _ _ Hc) as (HF & _).
  rewrite (compute_rules_total a rules _ _ HF (synthesized_zip a _ _ Hm)) in Hc.
  injection Hc as <-.
  pose proof (Forall2_length _ _ _ Hm) as Hlen.
  assert (Hids : NoDup (ID <$> zip_with (newrule a) archives names)).
  { rewrite zip_newrule_ids by done. apply NoDup_fmap_2; [|done].
    intros x y Heq. by apply append_inj_l, append_inj_l in Heq. }
  split; [done|]. split; [|split; [done|]].
  - intros i archive name Ha Hn.
    rewrite count_occ_app.
    assert (Hmi : re_match_archive a archive = Some name)
      by apply (Forall2_lookup_lr _ _ _ _ _ _ Hm Ha Hn).
    assert (Hzero : count_occ rule_eq_dec (List.filter (carried a) rules)
                      (newrule a archive name) = 0%nat).
    { apply count_occ_not_In. rewrite <- list_elem_of_In.
      intros [_ Hcar]%elem_of_filter_bool.
      by rewrite carried_newrule in Hcar. }
    rewrite Hzero. simpl.
    apply NoDup_fmap_1, NoDup_ListNoDup in Hids.
    apply (proj1 (NoDup_count_occ' rule_eq_dec _) Hids).
    apply list_elem_of_In, list_elem_of_lookup. exists i.
    apply lookup_zip_with_Some. eauto.
  - intros Hrules Hfresh. rewrite fmap_app. apply NoDup_app.
    split; [by apply filter_ids_NoDup|]. split; [|done].
    intros id (r & -> & [Hr Hcar]%elem_of_filter_bool)%list_elem_of_fmap.
    rewrite zip_newrule_ids by done.
    intros (name & Hid & Hname)%list_elem_of_fmap.
    by eapply Hfresh.
Qed.

Lemma rebuilt_rule_set_witness :
  lifecycle_update accepting default_args
    (PStr <$> ["duplicity/x/archive/"; "duplicity/y/archive/"])
    (bucket_with [custom_rule "logs" "logs/";
                  newrule default_args "duplicity/old/archive/" "old"])
  = (Ok [custom_rule "logs" "logs/";
         newrule default_args "duplicity/x/archive/" "x";
         newrule default_args "duplicity/y/archive/" "y"],
     {| lifecycle_rules :=
          Ok [custom_rule "logs" "logs/";
              newrule default_args "duplicity/x/archive/" "x";
              newrule default_args "duplicity/y/archive/" "y"];
        put_calls := [[custom_rule "logs" "logs/";
                       newrule default_args "duplicity/x/archive/" "x";
                       newrule default_args "duplicity/y/archive/" "y"]] |})
  ∧ NoDup ["x"; "y"]
  ∧ NoDup (ID <$> [custom_rule "logs" "logs/";
                   newrule default_args "duplicity/x/archive/" "x";
                   newrule default_args "duplicity/y/archive/" "y"]).
Proof.
  assert (Hnd : NoDup ["x"; "y"]).
  { apply NoDup_cons. split; [|apply NoDup_singleton].
    intros [Heq|Hin%elem_of_nil]%elem_of_cons; [discriminate Heq|done]. }
  split; [reflexivity|]. split; [exact Hnd|].
  assert (Hm : Forall2 (λ archive name,
                  re_match_archive default_args archive = Some name)
                 ["duplicity/x/archive/"; "duplicity/y/archive/"] ["x"; "y"])
    by by repeat constructor.
  destruct (rebuilt_rule_set accepting default_args
              ["duplicity/x/archive/"; "duplicity/y/archive/"] ["x"; "y"]
              (bucket_with [custom_rule "logs" "logs/";
                            newrule default_args "duplicity/old/archive/" "old"])
              _ _ _ eq_refl eq_refl Hm Hnd) as (_ & _ & _ & Hall).
  apply Hall.
  - apply NoDup_cons. split; [|apply NoDup_singleton].
    intros [Heq|Hin%elem_of_nil]%elem_of_cons; [discriminate Heq|done].
  - intros r name Hr Hcar Hname Hid.
    apply elem_of_cons in Hr as [->|Hr].
    + apply elem_of_cons in Hname as [->|Hname]; [discriminate Hid|].
      apply elem_of_cons in Hname as [->|Hname%elem_of_nil];
        [discriminate Hid|done].
    + apply elem_of_cons in Hr as [->|Hr%elem_of_nil]; [|done].
      discriminate Hcar.
Defined.

End LifecycleFacts.

(** * Paging through the archive listing *)
Module ListingFacts.
Import Lifecycle.

Lemma serves_nonempty svc token pages : serves svc token pages → pages ≠ [].
Proof. by destruct 1. Qed.

(** With enough fuel for one request per page, [archives_in_bucket]
    returns, and what it returns is [nested]. *)
Lemma archives_in_bucket_pages svc token pages fuel :
  serves svc token pages →
  (length pages ≤ fuel)%nat →
  archives_in_bucket fuel svc token = Some (Ok (nested pages)).
Proof.
  intros Hs. revert fuel.
  induction Hs as [token plist Hreq|token plist next pages Hreq Hs IH];
    intros [|fuel] Hlen; simpl in Hlen; try lia; simpl; rewrite Hreq; simpl.
  - done.
  - rewrite (IH fuel) by lia.
    destruct pages; [by apply serves_nonempty in Hs|done].
Qed.

(** A one-page listing comes back as the flat list of its prefixes. *)
Lemma archives_in_bucket_one_page svc token plist fuel :
  serves svc token [plist] →
  (1 ≤ fuel)%nat →
  archives_in_bucket fuel svc token = Some (Ok (PStr <$> plist)).
Proof. intros Hs Hfuel. by rewrite (archives_in_bucket_pages _ _ _ _ Hs). Qed.

(** C6 fails on the code.  For a listing of two or more pages,
    [archives_in_bucket] returns the prefixes of the first page followed by
    ONE further element, the list built for the remaining pages; this is
    not the flat list of the prefixes of all pages. *)
Theorem archives_in_bucket_nests_later_pages svc token plist pages fuel :
  serves svc token (plist :: pages) →
  pages ≠ [] →
  (length (plist :: pages) ≤ fuel)%nat →
  archives_in_bucket fuel svc token
    = Some (Ok ((PStr <$> plist) ++ [PList (nested pages)])) ∧
  archives_in_bucket fuel svc token
    ≠ Some (Ok (PStr <$> concat (plist :: pages))).
Proof.
  intros Hs Hne Hlen.
  rewrite (archives_in_bucket_pages _ _ _ _ Hs Hlen).
  assert (Hn : nested (plist :: pages)
               = (PStr <$> plist) ++ [PList (nested pages)])
    by by destruct pages.
  rewrite Hn. split; [done|].
  simpl. rewrite fmap_app. intros [= Heq%app_inv_head].
  by destruct (concat pages).
Qed.

Lemma archives_in_bucket_nests_later_pages_witness :
  archives_in_bucket 2 two_pages None
    = Some (Ok [PStr "duplicity/x/archive/";
                PList [PStr "duplicity/y/archive/"]]) ∧
  archives_in_bucket 2 two_pages None
    ≠ Some (Ok [PStr "duplicity/x/archive/"; PStr "duplicity/y/archive/"]).
Proof.
  apply (archives_in_bucket_nests_later_pages two_pages None
           ["duplicity/x/archive/"] [["duplicity/y/archive/"]] 2).
  - eapply serves_more; [reflexivity|]. by apply serves_last.
  - discriminate.
  - simpl. lia.
Defined.

(** What this does to a run: the second loop of [lifecycle_update] meets
    the nested list and the run ends in [TypeError], with nothing
    applied. *)
Lemma lambda_handler_two_pages :
  lambda_handler 2 two_pages default_args (bucket_with [])
  = Some (Raise TypeError, bucket_with []).
Proof. reflexivity. Qed.

End ListingFacts.

(** * The certificate synchronizer *)
Module IamSyncFacts.
Import IamSync.

(** ** The remote listing *)

(** A listing that fits one response comes back as the map filled from
    that response. *)
Lemma certificate_expirations_one_page svc a marker response :
  list_server_certificates svc (path a) (marker_given marker) = Ok response →
  Marker response = None →
  certificate_expirations svc a marker
  = Ok (record_expirations (ServerCertificateMetadataList response) ∅).
Proof.
  intros Hreq Hlast. unfold certificate_expirations.
  rewrite Hreq. simpl. by rewrite Hlast.
Qed.

Lemma record_expirations_lookup certs expires name :
  name ∉ ServerCertificateName <$> certs →
  record_expirations certs expires !! name = expires !! name.
Proof.
  revert expires. induction certs as [|c certs IH]; intros expires Hnin;
    [done|].
  apply not_elem_of_cons in Hnin as [Hne Hnin].
  unfold record_expirations in *. simpl. rewrite IH by done.
  by apply lookup_insert_ne.
Qed.

(** Every certificate of the response is in the map under its name, when
    the names of the response are pairwise distinct. *)
Lemma record_expirations_elem certs expires c :
  NoDup (ServerCertificateName <$> certs) →
  c ∈ certs →
  record_expirations certs expires !! ServerCertificateName c
  = Some (Expiration c).
Proof.
  revert expires. induction certs as [|c' certs IH]; intros expires Hnd Hc.
  - by apply elem_of_nil in Hc.
  - apply NoDup_cons in Hnd as [Hnin Hnd].
    apply elem_of_cons in Hc as [->|Hc].
    + change (record_expirations certs
                (<[ServerCertificateName c' := Expiration c']> expires)
              !! ServerCertificateName c' = Some (Expiration c')).
      rewrite record_expirations_lookup by done.
      apply lookup_insert_eq.
    + by apply IH.
Qed.

(** C5 fails on the code.  When the response carries a [Marker], that is
    when the listing has a further page, [certificate_expirations] does
    not return a map: it ends in [NameError], since the function it calls
    for the next page does not exist. *)
Theorem certificate_expirations_further_page svc a marker response next :
  list_server_certificates svc (path a) (marker_given marker) = Ok response →
  Marker response = Some next →
  certificate_expirations svc a marker
  = Raise (NameError "list_certificates").
Proof.
  intros Hreq Hmore. unfold certificate_expirations.
  rewrite Hreq. simpl. by rewrite Hmore.
Qed.

Lemma certificate_expirations_further_page_witness :
  Marker {| ServerCertificateMetadataList :=
              [ {| ServerCertificateName := "a"; Expiration := 100%Z |} ];
            Marker := Some "m1" |} = Some "m1" ∧
  certificate_expirations truncated default_args None
  = Raise (NameError "list_certificates").
Proof.
  split; [reflexivity|].
  by apply (certificate_expirations_further_page truncated default_args None
              _ "m1" eq_refl).
Defined.

(** The run on such a listing stops there, before any certificate is
    looked at. *)
Lemma iam_sync_certs_truncated :
  iam_sync_certs truncated default_args live_a_b fresh
  = (Raise (NameError "list_certificates"), fresh).
Proof. reflexivity. Qed.

(** ** The names gone through *)

Lemma letsencrypt_certnames_NoDup live : NoDup (letsencrypt_certnames live).
Proof.
  unfold letsencrypt_certnames.
  pose proof (NoDup_fst_map_to_list live) as Hnd.
  induction (map_to_list live) as [|[name c] l IH]; simpl; [constructor|].
  simpl in Hnd. apply NoDup_cons in Hnd as [Hnin Hnd].
  assert (Hsub : ∀ n, n ∈ (l ≫= λ '(name, c),
                    if is_dir c then
                      if has_cert c && has_chain c && has_privkey c
                      then [name] else []
                    else []) → n ∈ l.*1).
  { intros n ([n' c'] & Hn & Hin)%list_elem_of_bind.
    apply list_elem_of_fmap. exists (n', c'). split; [|done].
    destruct (is_dir c'); [|by apply elem_of_nil in Hn].
    destruct (has_cert c' && has_chain c' && has_privkey c');
      [|by apply elem_of_nil in Hn].
    by apply list_elem_of_singleton in Hn. }
  destruct (is_dir c); [|by apply IH].
  destruct (has_cert c && has_chain c && has_privkey c); [|by apply IH].
  simpl. apply NoDup_cons. split; [|by apply IH].
  intros Hin. by apply Hnin, Hsub.
Qed.

(** ** The replace date *)

Lemma datetime_minus_days_Ok t n r :
  datetime_minus_days t n = Ok r →
  r = (t - timedelta_days n)%Z ∧
  (Z.abs n ≤ timedelta_max_days)%Z ∧
  (datetime_min ≤ r ≤ datetime_max)%Z.
Proof.
  unfold datetime_minus_days.
  destruct (Z.abs n <=? timedelta_max_days)%Z eqn:Hn; [|done].
  destruct ((datetime_min <=? t - timedelta_days n)
            && (t - timedelta_days n <=? datetime_max))%Z eqn:Hr; [|done].
  intros [= <-]. apply andb_true_iff in Hr as [H1 H2]. lia.
Qed.

Lemma datetime_minus_days_in_range t n :
  (Z.abs n ≤ timedelta_max_days)%Z →
  (datetime_min ≤ t - timedelta_days n ≤ datetime_max)%Z →
  datetime_minus_days t n = Ok (t - timedelta_days n)%Z.
Proof.
  intros Hn [H1 H2]. unfold datetime_minus_days.
  rewrite (proj2 (Z.leb_le _ _) Hn), (proj2 (Z.leb_le _ _) H1),
    (proj2 (Z.leb_le _ _) H2). done.
Qed.

(** ** The loop *)

Section run.
Context (svc : iam_service) (a : args) (expires : gmap string Z).

Lemma calls_for_app name cs1 cs2 :
  calls_for name (cs1 ++ cs2) = calls_for name cs1 ++ calls_for name cs2.
Proof. apply List.filter_app. Qed.

Lemma calls_for_own name cs :
  Forall (λ c, call_name c = name) cs → calls_for name cs = cs.
Proof.
  induction 1 as [|c cs Hc _ IH]; [done|].
  unfold calls_for in *. simpl. rewrite bool_decide_eq_true_2 by done.
  by rewrite IH.
Qed.

Lemma calls_for_other name other cs :
  other ≠ name →
  Forall (λ c, call_name c = other) cs → calls_for name cs = [].
Proof.
  intros Hne. induction 1 as [|c cs Hc _ IH]; [done|].
  unfold calls_for in *. simpl.
  rewrite bool_decide_eq_false_2 by congruence. exact IH.
Qed.

Lemma iam_upload_cert_Ok name w w' :
  iam_upload_cert svc name w = (Ok (), w') →
  calls w' = calls w ++ [Upload name] ∧ clock_reads w' = clock_reads w.
Proof.
  unfold iam_upload_cert.
  destruct (upload_server_certificate svc name); [done|].
  by intros [= <-].
Qed.

Lemma replace_cert_Ok name w w' :
  replace_cert svc name w = (Ok (), w') →
  calls w' = calls w ++ [Delete name; Upload name] ∧
  clock_reads w' = clock_reads w.
Proof.
  unfold replace_cert, iam_delete_cert.
  destruct (delete_server_certificate svc name); [done|].
  intros [Hc Hr]%iam_upload_cert_Ok. simpl in *.
  by rewrite Hc, Hr, <- app_assoc.
Qed.

(** One pass through the loop body that ends without an error. *)
Lemma sync_cert_Ok certname w w' :
  sync_cert svc a expires certname w = (Ok (), w') →
  clock_reads w'
  = (clock_reads w + if reads_clock expires certname then 1 else 0)%nat ∧
  ∃ new, calls w' = calls w ++ new ∧
    match expires !! certname with
    | None => new = [Upload certname]
    | Some expiration =>
        if (expiration - timedelta_days (days a)
              <=? utcnow svc (clock_reads w))%Z || force a
        then new = [Delete certname; Upload certname]
        else new = []
    end.
Proof.
  unfold sync_cert, reads_clock.
  destruct (expires !! certname) as [expiration|] eqn:He; simpl.
  - destruct (datetime_minus_days expiration (days a))
      as [replacedate|] eqn:Hsub; [|done].
    apply datetime_minus_days_Ok in Hsub as [-> _]. simpl.
    destruct (expiration - timedelta_days (days a)
                <=? utcnow svc (clock_reads w))%Z; simpl;
      [|destruct (force a)]; simpl.
    1, 2: intros [Hc Hr]%replace_cert_Ok; simpl in *;
          (split; [lia|by eexists]).
    intros [= <-]. simpl. split; [lia|]. exists []. by rewrite app_nil_r.
  - intros [Hc Hr]%iam_upload_cert_Ok. split; [lia|by eexists].
Qed.

Lemma sync_cert_calls certname w w' :
  sync_cert svc a expires certname w = (Ok (), w') →
  ∃ new, calls w' = calls w ++ new ∧
         Forall (λ c, call_name c = certname) new.
Proof.
  intros (_ & new & Hc & Hnew)%sync_cert_Ok. exists new. split; [done|].
  destruct (expires !! certname) as [expiration|].
  - destruct ((expiration - timedelta_days (days a)
                 <=? utcnow svc (clock_reads w))%Z || force a);
      subst new; by repeat constructor.
  - subst new. by repeat constructor.
Qed.

(** Going through names other than [name] adds no call about [name], and
    reads the clock once per name that has a remote entry. *)
Lemma sync_certs_others certnames name w w' :
  sync_certs svc a expires certnames w = (Ok (), w') →
  name ∉ certnames →
  calls_for name (calls w') = calls_for name (calls w) ∧
  clock_reads w'
  = (clock_reads w + clock_reads_after expires certnames)%nat.
Proof.
  revert w. induction certnames as [|n certnames IH]; intros w; simpl.
  - intros [= <-] _. unfold clock_reads_after. simpl. split; [done|lia].
  - destruct (sync_cert svc a expires n w) as [[[]|] w1] eqn:Hstep; [|done].
    intros Hrest [Hne Hnin]%not_elem_of_cons.
    destruct (IH _ Hrest Hnin) as [Hc Hr].
    pose proof (sync_cert_Ok _ _ _ Hstep) as [Hr1 _].
    apply sync_cert_calls in Hstep as (new & Hc1 & Hnew).
    split.
    + rewrite Hc, Hc1, calls_for_app.
      rewrite (calls_for_other name n new) by done. by rewrite app_nil_r.
    + rewrite Hr, Hr1. unfold clock_reads_after. simpl.
      destruct (reads_clock expires n); simpl; lia.
Qed.

Lemma sync_certs_app pre post w w' :
  sync_certs svc a expires (pre ++ post) w = (Ok (), w') →
  ∃ w1, sync_certs svc a expires pre w = (Ok (), w1) ∧
        sync_certs svc a expires post w1 = (Ok (), w').
Proof.
  revert w. induction pre as [|n pre IH]; intros w; simpl; [by eauto|].
  destruct (sync_cert svc a expires n w) as [[[]|] w1]; [|done].
  apply IH.
Qed.

(** The calls about a name of the list, in a run from [fresh] that ends
    without an error: those of its own pass through the loop body, taken
    when the clock has been read once for every earlier name with a remote
    entry. *)
Lemma sync_certs_calls_for pre name post w' :
  sync_certs svc a expires (pre ++ name :: post) fresh = (Ok (), w') →
  NoDup (pre ++ name :: post) →
  match expires !! name with
  | None => calls_for name (calls w') = [Upload name]
  | Some expiration =>
      if (expiration - timedelta_days (days a)
            <=? utcnow svc (clock_reads_after expires pre))%Z || force a
      then calls_for name (calls w') = [Delete name; Upload name]
      else calls_for name (calls w') = []
  end.
Proof.
  intros (w1 & Hpre & Hrest)%sync_certs_app Hnd.
  apply NoDup_app in Hnd as (_ & Hpre_nin & [Hpost_nin _]%NoDup_cons).
  simpl in Hrest.
  destruct (sync_cert svc a expires name w1) as [[[]|] w2] eqn:Hstep; [|done].
  assert (Hnin : name ∉ pre).
  { intros Hin. apply (Hpre_nin _ Hin). left. }
  destruct (sync_certs_others _ _ _ _ Hpre Hnin) as [Hc1 Hr1].
  destruct (sync_certs_others _ _ _ _ Hrest Hpost_nin) as [Hc2 _].
  pose proof (sync_cert_calls _ _ _ Hstep) as (new' & Hc' & Hown).
  apply sync_cert_Ok in Hstep as (_ & new & Hc & Hnew).
  assert (new' = new) as -> by (rewrite Hc in Hc'; by apply app_inv_head in Hc').
  assert (Hfor : calls_for name (calls w') = new).
  { rewrite Hc2, Hc, calls_for_app, Hc1. simpl.
    by apply calls_for_own. }
  rewrite Hr1 in Hnew. simpl in Hnew.
  destruct (expires !! name) as [expiration|]; [|congruence].
  destruct ((expiration - timedelta_days (days a)
               <=? utcnow svc (clock_reads_after expires pre))%Z || force a);
    congruence.
Qed.

End run.

(** ** What happens to a certificate *)



(** C4 as stated fails: a certificate that expires exactly the window
    after the clock's reading, with the force flag unset, is deleted and
    uploaded again. *)
Lemma untouched_at_window_counterexample :
  ∃ expires w',
    certificate_expirations (one_remote (timedelta_days 30)) default_args None
      = Ok expires ∧
    "a" ∈ letsencrypt_certnames live_a_b ∧
    expires !! "a" = Some (100 + timedelta_days 30)%Z ∧
    (timedelta_days (days default_args)
       ≤ 100 + timedelta_days 30 - utcnow (one_remote (timedelta_days 30)) 0)%Z ∧
    force default_args = false ∧
    iam_sync_certs (one_remote (timedelta_days 30)) default_args live_a_b fresh
      = (Ok (), w') ∧
    calls_for "a" (calls w') = [Delete "a"; Upload "a"].
Proof.
  eexists _, _. split; [reflexivity|].
  split; [change ("a" ∈ ["a"; "b"]); left|].
  split; [reflexivity|]. split; [by vm_compute|].
  split; [reflexivity|]. split; reflexivity.
Qed.

(** C4, amended.  In a run that ends without an error, take a local
    certificate name with a remote entry, and the clock's reading when the
    loop reaches it (the clock has then been read once for each earlier
    name with a remote entry).  If the expiration minus that reading is at
    most the window, the name is deleted and then uploaded, and these are
    the only calls about it.  If it is more than the window and the force
    flag is unset, there is no call about the name. *)
Theorem existing_certificate_replaced_when_due
    svc a live w' expires pre post name expiration :
  iam_sync_certs svc a live fresh = (Ok (), w') →
  certificate_expirations svc a None = Ok expires →
  letsencrypt_certnames live = pre ++ name :: post →
  expires !! name = Some expiration →
  ((expiration - utcnow svc (clock_reads_after expires pre)
      ≤ timedelta_days (days a))%Z →
   calls_for name (calls w') = [Delete name; Upload name]) ∧
  ((timedelta_days (days a)
      < expiration - utcnow svc (clock_reads_after expires pre))%Z →
   force a = false →
   calls_for name (calls w') = []).
Proof.
  unfold iam_sync_certs. intros Hrun He Hsplit Hremote.
  rewrite He in Hrun.
  pose proof (letsencrypt_certnames_NoDup live) as Hnd.
  rewrite Hsplit in Hrun, Hnd.
  pose proof (sync_certs_calls_for _ _ _ _ _ _ _ Hrun Hnd) as Hcalls.
  rewrite Hremote in Hcalls.
  split.
  - intros Hdue.
    assert (Hleb : (expiration - timedelta_days (days a)
                      <=? utcnow svc (clock_reads_after expires pre))%Z = true)
      by (apply Z.leb_le; lia).
    by rewrite Hleb in Hcalls.
  - intros Hearly Hforce.
    assert (Hleb : (expiration - timedelta_days (days a)
                      <=? utcnow svc (clock_reads_after expires pre))%Z = false)
      by (apply Z.leb_gt; lia).
    by rewrite Hleb, Hforce in Hcalls.
Qed.

Lemma existing_certificate_replaced_when_due_witness :
  iam_sync_certs (one_remote (timedelta_days 10)) default_args live_a_b fresh
  = (Ok (), {| calls := [Delete "a"; Upload "a"; Upload "b"];
               clock_reads := 1 |})
  ∧ letsencrypt_certnames live_a_b = [] ++ "a" :: ["b"]
  ∧ (100 + timedelta_days 10 - 100 ≤ timedelta_days 30)%Z
  ∧ calls_for "a" [Delete "a"; Upload "a"; Upload "b"]
    = [Delete "a"; Upload "a"].
Proof.
  assert (Hdue : (100 + timedelta_days 10 - 100 ≤ timedelta_days 30)%Z)
    by (unfold timedelta_days; lia).
  split; [reflexivity|]. split; [reflexivity|]. split; [exact Hdue|].
  destruct (existing_certificate_replaced_when_due
              (one_remote (timedelta_days 10)) default_args live_a_b
              {| calls := [Delete "a"; Upload "a"; Upload "b"];
                 clock_reads := 1 |}
              _ [] ["b"] "a" (100 + timedelta_days 10)%Z
              eq_refl eq_refl eq_refl eq_refl) as [Hreplace _].
  exact (Hreplace Hdue).
Defined.

End IamSyncFacts.

(** * More on the lifecycle reconciler *)
Module LifecycleMore.
Import Lifecycle LifecycleFacts.

(** ** The archive-path pattern *)

Lemma lazy_group_Some tail s group :
  lazy_group tail s = Some group →
  (∃ rest, s = group +:+ tail +:+ rest) ∧
  contains_char newline group = false.
Proof.
  revert group. induction s as [|c s IH]; intros group; simpl.
  - destruct (startswith "" tail) eqn:Hs; [|done].
    intros [= <-]. split; [|done]. by apply startswith_true in Hs.
  - destruct (startswith (String c s) tail) eqn:Hs.
    + intros [= <-]. split; [|done]. by apply startswith_true in Hs.
    + case_decide as Hnl; [done|].
      destruct (lazy_group tail s) as [g|]; [|done].
      intros [= <-]. destruct (IH g eq_refl) as [[rest ->] Hg].
      split; [by exists rest|]. simpl. by case_decide.
Qed.

Lemma lazy_group_hit tail s :
  startswith s tail = true → lazy_group tail s = Some "".
Proof. intros Hs. destruct s; simpl; by rewrite Hs. Qed.

Lemma lazy_group_skip tail c s :
  startswith (String c s) tail = false →
  c ≠ newline →
  lazy_group tail (String c s) = String c <$> lazy_group tail s.
Proof. intros Hs Hc. simpl. rewrite Hs. by case_decide. Qed.

Lemma lazy_group_first tail group rest :
  contains_char newline group = false →
  (∀ c tail', tail = String c tail' → contains_char c group = false) →
  tail ≠ "" →
  lazy_group tail (group +:+ tail +:+ rest) = Some group.
Proof.
  intros Hnl Hfirst Htail. induction group as [|d group IH].
  - apply lazy_group_hit. apply (startswith_app tail rest).
  - change (String d group +:+ tail +:+ rest)
      with (String d (group +:+ tail +:+ rest)).
    destruct tail as [|c tail'] eqn:Ht; [done|].
    pose proof (Hfirst c tail' eq_refl) as Hc.
    simpl in Hc, Hnl.
    destruct (decide (d = c)) as [|Hdc]; [done|].
    destruct (decide (d = newline)) as [|Hdn]; [done|].
    rewrite lazy_group_skip; [|  |done].
    + rewrite IH; [done|done|].
      intros c' tail'' [= <- <-]. done.
    + unfold startswith. simpl. case_decide; [congruence|done].
Qed.

(** X1.  For a Duplicity prefix and an archive component without
    characters special in a regular expression, what the pattern finds is
    the text between the prefix and an occurrence of a slash and the
    archive component: the matched string starts with the prefix, the
    name, a slash and the archive component, and the name holds no
    newline. *)
Theorem re_match_archive_sound a s name :
  literal_text (duplicity_prefix a) = true →
  literal_text (file_prefix_archive a) = true →
  re_match_archive a s = Some name →
  (∃ rest, s = duplicity_prefix a +:+ name +:+ "/"
               +:+ file_prefix_archive a +:+ rest) ∧
  contains_char newline name = false.
Proof.
  intros _ _. unfold re_match_archive.
  destruct (strip_prefix (duplicity_prefix a) s) as [r|] eqn:Hp; [|done].
  apply strip_prefix_Some in Hp as ->.
  intros [[rest ->] Hnl]%lazy_group_Some. split; [by exists rest|done].
Qed.

Lemma re_match_archive_sound_witness :
  (∃ rest, "duplicity/host/archive/duplicity-full.vol1"
           = duplicity_prefix default_args +:+ "host" +:+ "/"
               +:+ file_prefix_archive default_args +:+ rest) ∧
  contains_char newline "host" = false.
Proof.
  apply (re_match_archive_sound default_args
           "duplicity/host/archive/duplicity-full.vol1" "host");
    reflexivity.
Defined.

(** X2.  For a Duplicity prefix and an archive component without
    characters special in a regular expression, a path made of the prefix,
    a name without slash and without newline, a slash, the archive
    component and anything after it is matched, and the name found is that
    name. *)
Theorem re_match_archive_complete a name rest :
  literal_text (duplicity_prefix a) = true →
  literal_text (file_prefix_archive a) = true →
  contains_char slash name = false →
  contains_char newline name = false →
  re_match_archive a
    (duplicity_prefix a +:+ name +:+ "/" +:+ file_prefix_archive a +:+ rest)
  = Some name.
Proof.
  intros _ _ Hslash Hnl. unfold re_match_archive. rewrite strip_prefix_app.
  apply (lazy_group_first ("/" +:+ file_prefix_archive a) name rest);
    [done| |done].
  by intros c tail' [= <- <-].
Qed.

Lemma re_match_archive_complete_witness :
  re_match_archive default_args
    (duplicity_prefix default_args +:+ "host" +:+ "/"
       +:+ file_prefix_archive default_args +:+ "duplicity-full.vol1")
  = Some "host".
Proof.
  apply (re_match_archive_complete default_args "host" "duplicity-full.vol1");
    reflexivity.
Defined.

(** ** Which rules a run leaves on an archive prefix *)

(** X3.  In the rule set a run returns, a rule whose filter prefix
    matches the archive-path pattern and whose identifier starts with the
    identifier prefix is the rule freshly built for an archive of the
    list, so it carries the current number of days; with [clean] set this
    holds for every rule whose filter prefix matches the pattern. *)
Theorem matching_rules_are_fresh svc a archives b b' out r prefix :
  lifecycle_update svc a archives b = (Ok out, b') →
  r ∈ out →
  Filter_Prefix r = Some prefix →
  is_Some (re_match_archive a prefix) →
  clean a = true ∨ startswith (ID r) (lifecycle_id_prefix a) = true →
  PStr prefix ∈ archives ∧
  ∃ name, re_match_archive a prefix = Some name ∧ r = newrule a prefix name.
Proof.
  intros (rules & _ & Hc)%lifecycle_update_Ok Hr Hp [name Hm] Hwhy.
  apply compute_rules_Ok in Hc as (_ & syn & Hsyn & ->).
  apply elem_of_app in Hr as [Hr|Hr].
  - apply elem_of_filter_bool in Hr as [_ Hcar]. unfold carried in Hcar.
    rewrite Hp, Hm in Hcar.
    destruct Hwhy as [Hw|Hw]; rewrite Hw in Hcar; simpl in Hcar;
      [by rewrite andb_false_r in Hcar|done].
  - destruct (synthesized_elem_of a _ _ _ Hsyn Hr)
      as (v & Hv & archive & name' & -> & Hm' & ->).
    simpl in Hp. simplify_eq. split; [done|]. eauto.
Qed.

Lemma matching_rules_are_fresh_witness :
  PStr "duplicity/x/archive/" ∈ [PStr "duplicity/x/archive/"] ∧
  ∃ name,
    re_match_archive (with_noop true default_args) "duplicity/x/archive/"
      = Some name ∧
    newrule (with_noop true default_args) "duplicity/x/archive/" "x"
    = newrule (with_noop true default_args) "duplicity/x/archive/" name.
Proof.
  assert (Hin : newrule (with_noop true default_args)
                  "duplicity/x/archive/" "x"
                ∈ [custom_rule "mine" "duplicity/x/archive/";
                   newrule (with_noop true default_args)
                     "duplicity/x/archive/" "x"]) by (right; left).
  assert (Hm : is_Some (re_match_archive (with_noop true default_args)
                          "duplicity/x/archive/")) by by eexists.
  exact (matching_rules_are_fresh accepting (with_noop true default_args)
           [PStr "duplicity/x/archive/"]
           (bucket_with [custom_rule "mine" "duplicity/x/archive/";
                         {| ID := "Duplicity-Auto-Lifecycle-x";
                            Filter_Prefix := Some "duplicity/x/archive/";
                            Status := "Enabled";
                            Transitions :=
                              [ {| Days := 10; StorageClass := "GLACIER" |} ];
                            Other := [] |}])
           _ _ _ "duplicity/x/archive/" eq_refl Hin eq_refl Hm
           (or_intror eq_refl)).
Defined.

(** ** What a run changes *)

(** X4.  Whatever a run ends in, the stored rules are either what they
    were, or the run returned a rule set, was not in no-op mode, and the
    stored rules are that rule set; and the run has issued no [put], or one
    [put] with the rule set it computed. *)
Theorem stored_rules_change_only_by_put svc a archives b res b' :
  lifecycle_update svc a archives b = (res, b') →
  (lifecycle_rules b' = lifecycle_rules b ∨
   ∃ out, res = Ok out ∧ noop a = false ∧ lifecycle_rules b' = Ok out) ∧
  (put_calls b' = put_calls b ∨
   ∃ rules newrules,
     lifecycle_rules b = Ok rules ∧
     compute_rules a rules archives = Ok newrules ∧
     put_calls b' = put_calls b ++ [newrules]).
Proof.
  unfold lifecycle_update.
  destruct (lifecycle_rules b) as [rules|] eqn:Hb;
    [|intros [= <- <-]; rewrite Hb; by split; left].
  destruct (compute_rules a rules archives) as [newrules|] eqn:Hc;
    [|intros [= <- <-]; rewrite Hb; by split; left].
  destruct (noop a); simpl;
    [intros [= <- <-]; rewrite Hb; by split; left|].
  unfold lifecycle_put. destruct (put_refused svc newrules).
  - intros [= <- <-]. simpl. split; [by left|right; eauto].
  - intros [= <- <-]. simpl. split; right; eauto.
Qed.

Lemma stored_rules_change_only_by_put_witness :
  (lifecycle_rules (bucket_with []) = lifecycle_rules (bucket_with []) ∨
   ∃ out, Raise AttributeError = Ok out ∧ noop default_args = false ∧
          lifecycle_rules (bucket_with []) = Ok out) ∧
  (put_calls (bucket_with []) = put_calls (bucket_with []) ∨
   ∃ rules newrules,
     lifecycle_rules (bucket_with []) = Ok rules ∧
     compute_rules default_args rules [PStr "elsewhere/"] = Ok newrules ∧
     put_calls (bucket_with []) = put_calls (bucket_with []) ++ [newrules]).
Proof.
  apply (stored_rules_change_only_by_put accepting default_args
           [PStr "elsewhere/"] (bucket_with [])
           (Raise AttributeError) (bucket_with [])).
  reflexivity.
Defined.




Lemma add_archives_unparsable a archives acc archive :
  archive ∈ archives →
  re_match_archive a archive = None →
  add_archives a (PStr <$> archives) acc = Raise AttributeError.
Proof.
  intros Hin Hnone. revert acc.
  induction archives as [|s archives IH]; intros acc;
    [by apply elem_of_nil in Hin|].
  apply elem_of_cons in Hin as [<-|Hin]; simpl.
  - by rewrite Hnone.
  - destruct (re_match_archive a s); [by apply IH|done].
Qed.

(** X6.  When every existing rule has a filter prefix and one of the
    archive prefixes handed in does not match the archive-path pattern,
    the run ends in [AttributeError] and the bucket is as it was. *)
Theorem unparsable_archive_stops_run svc a archives b rules archive :
  lifecycle_rules b = Ok rules →
  Forall (λ r, is_Some (Filter_Prefix r)) rules →
  archive ∈ archives →
  re_match_archive a archive = None →
  lifecycle_update svc a (PStr <$> archives) b = (Raise AttributeError, b).
Proof.
  intros Hb HF Hin Hnone. unfold lifecycle_update, compute_rules.
  rewrite Hb, (keep_existing_total a rules [] HF). simpl.
  by rewrite (add_archives_unparsable a archives _ archive Hin Hnone).
Qed.

Lemma unparsable_archive_stops_run_witness :
  lifecycle_update accepting default_args
    (PStr <$> ["duplicity/x/archive/"; "duplicity/archive/"])
    (bucket_with [custom_rule "logs" "logs/"])
  = (Raise AttributeError, bucket_with [custom_rule "logs" "logs/"]).
Proof.
  apply (unparsable_archive_stops_run accepting default_args
           ["duplicity/x/archive/"; "duplicity/archive/"]
           (bucket_with [custom_rule "logs" "logs/"])
           [custom_rule "logs" "logs/"] "duplicity/archive/").
  - reflexivity.
  - repeat constructor. by eexists.
  - right. left.
  - reflexivity.
Defined.

Lemma compute_rules_with_noop on a rules archives :
  compute_rules (with_noop on a) rules archives
  = compute_rules a rules archives.
Proof.
  unfold compute_rules.
  assert (Hk : ∀ acc, keep_existing (with_noop on a) rules acc
                      = keep_existing a rules acc).
  { induction rules as [|r rules IH]; intros acc; simpl; [done|].
    destruct (Filter_Prefix r); [|done].
    unfold re_match_archive. simpl.
    destruct (strip_prefix (duplicity_prefix a) s); [|by rewrite IH].
    destruct (lazy_group _ s0); by rewrite ?IH. }
  rewrite Hk. destruct (keep_existing a rules []) as [kept|]; [|done].
  simpl. generalize kept.
  induction archives as [|[archive|] archives IH]; intros acc; simpl;
    [done| |done].
  unfold re_match_archive. simpl.
  destruct (strip_prefix (duplicity_prefix a) archive); [|done].
  destruct (lazy_group _ s); [|done].
  rewrite IH. by unfold newrule.
Qed.

(** X7.  The no-op mode is a faithful dry run: the rule set a run returns
    with [--noop] is the rule set the run without [--noop] returns from
    the same bucket, applies with a single [put] and stores, whenever the
    service takes it. *)
Theorem dry_run_predicts_run svc a archives b out :
  lifecycle_update svc (with_noop true a) archives b = (Ok out, b) →
  put_refused svc out = None →
  lifecycle_update svc (with_noop false a) archives b
  = (Ok out, {| lifecycle_rules := Ok out;
                put_calls := put_calls b ++ [out] |}).
Proof.
  intros (rules & Hb & Hc)%lifecycle_update_Ok Hput.
  rewrite compute_rules_with_noop in Hc.
  unfold lifecycle_update, lifecycle_put.
  by rewrite Hb, compute_rules_with_noop, Hc, Hput.
Qed.

Lemma dry_run_predicts_run_witness :
  lifecycle_update accepting (with_noop false default_args)
    [PStr "duplicity/x/archive/"] (bucket_with [custom_rule "logs" "logs/"])
  = (Ok [custom_rule "logs" "logs/";
         newrule default_args "duplicity/x/archive/" "x"],
     {| lifecycle_rules :=
          Ok [custom_rule "logs" "logs/";
              newrule default_args "duplicity/x/archive/" "x"];
        put_calls :=
          put_calls (bucket_with [custom_rule "logs" "logs/"])
          ++ [[custom_rule "logs" "logs/";
               newrule default_args "duplicity/x/archive/" "x"]] |}).
Proof.
  apply (dry_run_predicts_run accepting default_args
           [PStr "duplicity/x/archive/"]
           (bucket_with [custom_rule "logs" "logs/"]));
    reflexivity.
Defined.

(** ** Listing, then updating *)

Lemma add_archives_nested a archives more acc :
  ∃ e, add_archives a (archives ++ [PList more]) acc = Raise e.
Proof.
  revert acc. induction archives as [|[archive|] archives IH];
    intros acc; simpl; [by eexists| |by eexists].
  destruct (re_match_archive a archive); [apply IH|by eexists].
Qed.

(** X8.  When the archive listing has two or more pages, the whole run
    (listing, then update) ends in an error and the bucket is as it was:
    no rule set is applied. *)
Theorem paged_listing_stops_run svc a b plist pages fuel :
  serves svc None (plist :: pages) →
  pages ≠ [] →
  (length (plist :: pages) ≤ fuel)%nat →
  ∃ e, lambda_handler fuel svc a b = Some (Raise e, b).
Proof.
  intros Hs Hne Hlen. unfold lambda_handler.
  rewrite (ListingFacts.archives_in_bucket_pages _ _ _ _ Hs Hlen).
  assert (Hn : nested (plist :: pages)
               = (PStr <$> plist) ++ [PList (nested pages)])
    by by destruct pages.
  rewrite Hn. unfold lifecycle_update, compute_rules.
  destruct (lifecycle_rules b) as [rules|]; [|by eexists].
  destruct (keep_existing a rules []) as [kept|]; simpl; [|by eexists].
  destruct (add_archives_nested a (PStr <$> plist) (nested pages) kept)
    as [e ->].
  by eexists.
Qed.

Lemma paged_listing_stops_run_witness :
  ∃ e, lambda_handler 5 two_pages default_args
         (bucket_with [custom_rule "logs" "logs/"])
       = Some (Raise e, bucket_with [custom_rule "logs" "logs/"]).
Proof.
  apply (paged_listing_stops_run two_pages default_args
           (bucket_with [custom_rule "logs" "logs/"])
           ["duplicity/x/archive/"] [["duplicity/y/archive/"]] 5).
  - eapply serves_more; [reflexivity|]. by apply serves_last.
  - discriminate.
  - simpl. lia.
Defined.

(** X9.  When the listing fits one page, every listed prefix matches the
    archive-path pattern, every existing rule has a filter prefix, [noop]
    is unset and the service takes the [put] of the rule set computed, the
    whole run returns: its rule set is the
    kept existing rules followed by one rule per listed prefix, and this
    rule set is what the bucket stores afterwards. *)
Theorem one_page_run_applies_rules svc a b rules plist names fuel :
  serves svc None [plist] →
  (1 ≤ fuel)%nat →
  lifecycle_rules b = Ok rules →
  Forall (λ r, is_Some (Filter_Prefix r)) rules →
  Forall2 (λ archive name, re_match_archive a archive = Some name)
          plist names →
  put_refused svc (List.filter (carried a) rules
                   ++ zip_with (newrule a) plist names) = None →
  noop a = false →
  lambda_handler fuel svc a b
  = Some (Ok (List.filter (carried a) rules
              ++ zip_with (newrule a) plist names),
          {| lifecycle_rules :=
               Ok (List.filter (carried a) rules
                   ++ zip_with (newrule a) plist names);
             put_calls :=
               put_calls b ++ [List.filter (carried a) rules
                               ++ zip_with (newrule a) plist names] |}).
Proof.
  intros Hs Hfuel Hb HF Hm Hput Hnoop. unfold lambda_handler.
  rewrite (ListingFacts.archives_in_bucket_pages _ _ _ _ Hs Hfuel). simpl.
  unfold lifecycle_update, lifecycle_put. rewrite Hb.
  rewrite (compute_rules_total a rules _ _ HF (synthesized_zip a _ _ Hm)).
  by rewrite Hnoop, Hput.
Qed.

Lemma one_page_run_applies_rules_witness :
  lambda_handler 1
    {| list_objects_v2 := λ _,
         Ok {| CommonPrefixes := Some ["duplicity/x/archive/"];
               NextContinuationToken := None |};
       put_refused := λ _, None |}
    default_args (bucket_with [custom_rule "logs" "logs/"])
  = Some (Ok [custom_rule "logs" "logs/";
              newrule default_args "duplicity/x/archive/" "x"],
          {| lifecycle_rules :=
               Ok [custom_rule "logs" "logs/";
                   newrule default_args "duplicity/x/archive/" "x"];
             put_calls := [[custom_rule "logs" "logs/";
                            newrule default_args "duplicity/x/archive/" "x"]]
          |}).
Proof.
  apply (one_page_run_applies_rules _ default_args
           (bucket_with [custom_rule "logs" "logs/"])
           [custom_rule "logs" "logs/"] ["duplicity/x/archive/"] ["x"] 1).
  - by apply serves_last.
  - lia.
  - reflexivity.
  - repeat constructor. by eexists.
  - by repeat constructor.
  - done.
  - reflexivity.
Defined.

End LifecycleMore.

(** * More on the certificate synchronizer *)
Module IamSyncMore.
Import IamSync IamSyncFacts.

(** ** The local names *)

(** X10.  [letsencrypt_certnames] returns each name once, and a name is
    returned exactly when its entry of the live path is a directory that
    holds all three of [cert.pem], [chain.pem] and [privkey.pem]. *)
Theorem letsencrypt_certnames_valid live :
  NoDup (letsencrypt_certnames live) ∧
  ∀ name,
    name ∈ letsencrypt_certnames live ↔
    ∃ c, live !! name = Some c ∧ is_dir c = true ∧ has_cert c = true ∧
         has_chain c = true ∧ has_privkey c = true.
Proof.
  split; [apply letsencrypt_certnames_NoDup|].
  intros name. unfold letsencrypt_certnames. rewrite list_elem_of_bind.
  split.
  - intros ([n c] & Hn & Hin). apply elem_of_map_to_list in Hin.
    destruct (is_dir c) eqn:Hd; [|by apply elem_of_nil in Hn].
    destruct (has_cert c) eqn:H1; [|by apply elem_of_nil in Hn].
    destruct (has_chain c) eqn:H2; [|by apply elem_of_nil in Hn].
    destruct (has_privkey c) eqn:H3; [|by apply elem_of_nil in Hn].
    apply list_elem_of_singleton in Hn as ->. by exists c.
  - intros (c & Hc & Hd & H1 & H2 & H3). exists (name, c).
    split; [|by apply elem_of_map_to_list].
    rewrite Hd, H1, H2, H3. simpl. left.
Qed.

(** ** The remote listing *)

(** X11.  For a listing that fits one response and names each
    certificate once, [certificate_expirations] returns a map that holds a
    name with an expiration exactly when the response lists that pair. *)
Theorem certificate_expirations_one_page_map svc a marker response :
  list_server_certificates svc (path a) (marker_given marker) = Ok response →
  Marker response = None →
  NoDup (ServerCertificateName <$> ServerCertificateMetadataList response) →
  ∃ expires,
    certificate_expirations svc a marker = Ok expires ∧
    ∀ name expiration,
      expires !! name = Some expiration ↔
      {| ServerCertificateName := name; Expiration := expiration |}
        ∈ ServerCertificateMetadataList response.
Proof.
  intros Hreq Hlast Hnd.
  rewrite (certificate_expirations_one_page _ _ _ _ Hreq Hlast).
  eexists. split; [done|]. intros name expiration. split.
  - intros Hl.
    destruct (decide (name ∈ ServerCertificateName
                             <$> ServerCertificateMetadataList response))
      as [Hin|Hnin].
    + apply list_elem_of_fmap in Hin as ([n e] & -> & Hc).
      rewrite (record_expirations_elem _ _ _ Hnd Hc) in Hl.
      simpl in Hl. by simplify_eq.
    + by rewrite record_expirations_lookup in Hl.
  - intros Hc. by rewrite (record_expirations_elem _ _ _ Hnd Hc).
Qed.

Lemma certificate_expirations_one_page_map_witness :
  ∃ expires,
    certificate_expirations (one_remote 5) default_args None = Ok expires ∧
    ∀ name expiration,
      expires !! name = Some expiration ↔
      {| ServerCertificateName := name; Expiration := expiration |}
        ∈ [ {| ServerCertificateName := "a"; Expiration := (100 + 5)%Z |} ].
Proof.
  apply (certificate_expirations_one_page_map (one_remote 5) default_args
           None _ eq_refl eq_refl).
  apply NoDup_singleton.
Defined.

(** X18.  [dictmerge x y] holds every key of [x] and of [y]; a key of
    [y] has the value [y] gives it, and any other key the value [x] gives
    it. *)
Theorem dictmerge_lookup (x y : gmap string Z) name :
  dictmerge x y !! name
  = match y !! name with
    | Some expiration => Some expiration
    | None => x !! name
    end.
Proof.
  unfold dictmerge. rewrite lookup_union.
  by destruct (y !! name), (x !! name).
Qed.

(** X12.  When the remote listing goes on after its first page, the whole
    synchronization ends in [NameError] before any certificate is looked
    at: nothing is deleted and nothing is uploaded. *)
Theorem paged_remote_listing_stops_sync svc a live w response next :
  list_server_certificates svc (path a) None = Ok response →
  Marker response = Some next →
  iam_sync_certs svc a live w = (Raise (NameError "list_certificates"), w).
Proof.
  intros Hreq Hmore. unfold iam_sync_certs, certificate_expirations. simpl.
  rewrite Hreq. simpl. by rewrite Hmore.
Qed.

Lemma paged_remote_listing_stops_sync_witness :
  iam_sync_certs truncated default_args live_a_b fresh
  = (Raise (NameError "list_certificates"), fresh).
Proof.
  by apply (paged_remote_listing_stops_sync truncated default_args live_a_b
              fresh _ "m1" eq_refl).
Defined.

(** ** The loop, whatever it ends in *)

Section any_run.
Context (svc : iam_service) (a : args) (expires : gmap string Z).

(** The calls one pass through the loop body adds, with or without an
    error. *)
Lemma sync_cert_shape certname w res w' :
  sync_cert svc a expires certname w = (res, w') →
  ∃ new, calls w' = calls w ++ new ∧
    ((expires !! certname = None ∧ new = [Upload certname]) ∨
     (is_Some (expires !! certname) ∧ new = []) ∨
     (is_Some (expires !! certname) ∧
      new = [Delete certname; Upload certname] ∧
      delete_server_certificate svc certname = None) ∨
     (∃ e, is_Some (expires !! certname) ∧ new = [Delete certname] ∧
           delete_server_certificate svc certname = Some e ∧
           res = Raise e)).
Proof.
  assert (Hreplace : ∀ w1 res1 w1',
            calls w1 = calls w →
            replace_cert svc certname w1 = (res1, w1') →
            (calls w1' = calls w ++ [Delete certname; Upload certname] ∧
             delete_server_certificate svc certname = None) ∨
            (∃ e, calls w1' = calls w ++ [Delete certname] ∧
                  delete_server_certificate svc certname = Some e ∧
                  res1 = Raise e)).
  { intros w1 res1 w1' Hw1. unfold replace_cert, iam_delete_cert.
    destruct (delete_server_certificate svc certname) as [e|].
    - intros [= <- <-]. right. exists e. simpl. by rewrite Hw1.
    - unfold iam_upload_cert.
      destruct (upload_server_certificate svc certname);
        intros [= <- <-]; left; simpl; by rewrite Hw1, <- app_assoc. }
  unfold sync_cert.
  destruct (expires !! certname) as [expiration|] eqn:He.
  - simpl. assert (Hs : is_Some (Some expiration)) by by eexists.
    destruct (datetime_minus_days expiration (days a)) as [replacedate|];
      [|intros [= <- <-]; exists []; rewrite app_nil_r; eauto 10].
    simpl.
    destruct ((replacedate <=? utcnow svc (clock_reads w))%Z) eqn:Hdue;
      [|destruct (force a) eqn:Hforce].
    1, 2: intros Hrun;
          destruct (Hreplace
                      {| calls := calls w; clock_reads := S (clock_reads w) |}
                      _ _ eq_refl Hrun)
            as [[Hc Hd]|(e & Hc & Hd & ->)];
          eexists; (split; [exact Hc|]); eauto 10.
    intros [= <- <-]. exists []. simpl. rewrite app_nil_r. eauto 10.
  - unfold iam_upload_cert.
    destruct (upload_server_certificate svc certname);
      intros [= <- <-]; eexists; (split; [reflexivity|]); eauto.
Qed.

Lemma sync_certs_may_issue certnames w res w' :
  sync_certs svc a expires certnames w = (res, w') →
  ∃ new, calls w' = calls w ++ new ∧
         Forall (may_issue svc expires certnames) new.
Proof.
  revert w. induction certnames as [|n certnames IH]; intros w; simpl.
  - intros [= <- <-]. exists []. by rewrite app_nil_r.
  - destruct (sync_cert svc a expires n w) as [res1 w1] eqn:Hstep.
    apply sync_cert_shape in Hstep as (new & Hc & Hshape).
    assert (Hn : n ∈ n :: certnames) by left.
    assert (Hnew : Forall (may_issue svc expires (n :: certnames)) new).
    { destruct Hshape as [[He ->]|[(Hs & ->)|[(Hs & -> & Hd)|
                          (e & Hs & -> & Hd & _)]]];
        repeat apply List.Forall_cons; try apply List.Forall_nil;
        simpl; auto. }
    destruct res1 as [[]|e].
    + intros (more & Hc' & Hmore)%IH.
      exists (new ++ more). split; [by rewrite Hc', Hc, <- app_assoc|].
      apply Forall_app. split; [done|].
      eapply Forall_impl; [exact Hmore|].
      intros [n'|n'] [Hin Hwhy]; (split; [by right|done]).
    + intros [= <- <-]. exists new. by split.
Qed.

Lemma settled_app cs1 cs2 : settled cs1 → settled cs2 → settled (cs1 ++ cs2).
Proof. induction 1; intros; simpl; [done|constructor; auto..]. Qed.

Lemma sync_certs_settled certnames w res w' :
  settled (calls w) →
  sync_certs svc a expires certnames w = (res, w') →
  ∃ cs tail,
    calls w' = cs ++ tail ∧ settled cs ∧
    (tail = [] ∨
     ∃ name e, tail = [Delete name] ∧
               delete_server_certificate svc name = Some e ∧
               res = Raise e).
Proof.
  revert w. induction certnames as [|n certnames IH]; intros w Hw; simpl.
  - intros [= <- <-]. exists (calls w), []. rewrite app_nil_r. eauto.
  - destruct (sync_cert svc a expires n w) as [res1 w1] eqn:Hstep.
    apply sync_cert_shape in Hstep as (new & Hc & Hshape).
    destruct Hshape as [[He ->]|[(Hs & ->)|[(Hs & -> & Hd)|
                        (e & Hs & -> & Hd & ->)]]].
    1, 2, 3: assert (Hw1 : settled (calls w1))
               by (rewrite Hc; apply settled_app;
                   [done|repeat constructor]);
             destruct res1 as [[]|e];
             [by apply IH
             |intros [= <- <-]; exists (calls w1), [];
              rewrite app_nil_r; eauto].
    intros [= <- <-]. exists (calls w), [Delete n]. eauto 10.
Qed.

Lemma sync_certs_idle certnames w :
  Forall (λ name, ∃ expiration replacedate,
            expires !! name = Some expiration ∧
            datetime_minus_days expiration (days a) = Ok replacedate ∧
            ∀ k, (utcnow svc k < replacedate)%Z)
         certnames →
  force a = false →
  sync_certs svc a expires certnames w
  = (Ok (), {| calls := calls w;
               clock_reads := clock_reads w + length certnames |}).
Proof.
  intros Hall Hforce. revert w.
  induction Hall as [|n certnames (expiration & replacedate & He & Hsub
                                   & Hearly) _ IH];
    intros w; simpl.
  - destruct w. simpl. by rewrite Nat.add_0_r.
  - unfold sync_cert. rewrite He, Hsub. simpl.
    rewrite (proj2 (Z.leb_gt _ _) (Hearly (clock_reads w))), Hforce.
    rewrite IH. simpl. do 2 f_equal. lia.
Qed.

End any_run.

(** ** What a run never does *)

(** X13.  Whatever a run ends in, every call it has issued is about a
    local certificate name, and every delete is of a name that has an
    entry in the remote map: a remote certificate without a local
    directory is never touched. *)
Theorem sync_touches_only_local_names svc a live res w' expires c :
  iam_sync_certs svc a live fresh = (res, w') →
  certificate_expirations svc a None = Ok expires →
  c ∈ calls w' →
  call_name c ∈ letsencrypt_certnames live ∧
  ∀ name, c = Delete name → is_Some (expires !! name).
Proof.
  unfold iam_sync_certs. intros Hrun He Hc. rewrite He in Hrun.
  apply sync_certs_may_issue in Hrun as (new & Hcalls & Hnew).
  simpl in Hcalls. rewrite Hcalls in Hc.
  eapply Forall_forall in Hnew; [|exact Hc].
  destruct c as [n|n]; destruct Hnew as [Hin Hwhy]; simpl.
  - split; [done|]. by intros ? [= <-].
  - split; [done|]. by intros ? [=].
Qed.

Lemma sync_touches_only_local_names_witness :
  call_name (Delete "a") ∈ letsencrypt_certnames live_a_b ∧
  ∀ name, Delete "a" = Delete name →
          is_Some (record_expirations
                     [ {| ServerCertificateName := "a";
                          Expiration := (100 + timedelta_days 10)%Z |} ] ∅
                   !! name).
Proof.
  apply (sync_touches_only_local_names (one_remote (timedelta_days 10))
           default_args live_a_b (Ok ())
           {| calls := [Delete "a"; Upload "a"; Upload "b"];
              clock_reads := 1 |}).
  - reflexivity.
  - reflexivity.
  - left.
Defined.

(** X14.  Whatever a run ends in, a certificate that has a remote entry
    and whose delete the service refuses is not uploaded. *)
Theorem refused_delete_never_uploaded svc a live res w' expires name :
  iam_sync_certs svc a live fresh = (res, w') →
  certificate_expirations svc a None = Ok expires →
  is_Some (expires !! name) →
  is_Some (delete_server_certificate svc name) →
  Upload name ∉ calls w'.
Proof.
  unfold iam_sync_certs. intros Hrun He [e Hremote] [e' Hrefused] Hc.
  rewrite He in Hrun.
  apply sync_certs_may_issue in Hrun as (new & Hcalls & Hnew).
  simpl in Hcalls. rewrite Hcalls in Hc.
  eapply Forall_forall in Hnew; [|exact Hc].
  destruct Hnew as [_ [Hnone|Hok]]; congruence.
Qed.

Lemma refused_delete_never_uploaded_witness :
  iam_sync_certs (delete_refused (timedelta_days 10)) default_args
    live_a_b fresh
  = (Raise (ClientError "DeleteConflict"),
     {| calls := [Delete "a"]; clock_reads := 1 |})
  ∧ Upload "a" ∉ [Delete "a"].
Proof.
  split; [reflexivity|].
  apply (refused_delete_never_uploaded (delete_refused (timedelta_days 10))
           default_args live_a_b
           (Raise (ClientError "DeleteConflict"))
           {| calls := [Delete "a"]; clock_reads := 1 |}
           _ "a" eq_refl eq_refl); by eexists.
Defined.

(** X15.  Whatever a run ends in, every delete in its log is directly
    followed by the upload of the same name, except a last delete that the
    service refused, which is the error the run ends in. *)
Theorem delete_is_followed_by_upload svc a live res w' :
  iam_sync_certs svc a live fresh = (res, w') →
  ∃ cs tail,
    calls w' = cs ++ tail ∧ settled cs ∧
    (tail = [] ∨
     ∃ name e, tail = [Delete name] ∧
               delete_server_certificate svc name = Some e ∧
               res = Raise e).
Proof.
  unfold iam_sync_certs.
  destruct (certificate_expirations svc a None) as [expires|e].
  - apply sync_certs_settled. constructor.
  - intros [= <- <-]. exists [], []. split; [done|].
    split; [constructor|by left].
Qed.

Lemma delete_is_followed_by_upload_witness :
  ∃ cs tail,
    [Delete "a"] = cs ++ tail ∧ settled cs ∧
    (tail = [] ∨
     ∃ name e, tail = [Delete name] ∧
               delete_server_certificate
                 (delete_refused (timedelta_days 10)) name = Some e ∧
               @Raise unit (ClientError "DeleteConflict") = Raise e).
Proof.
  apply (delete_is_followed_by_upload (delete_refused (timedelta_days 10))
           default_args live_a_b
           (Raise (ClientError "DeleteConflict"))
           {| calls := [Delete "a"]; clock_reads := 1 |}).
  reflexivity.
Defined.

(** A window so far in the past or future that the replace date is no
    date ends the run in [OverflowError] before the clock is read. *)
Lemma replace_date_overflow_stops_run svc a live w expires name expiration :
  certificate_expirations svc a None = Ok expires →
  letsencrypt_certnames live = [name] →
  expires !! name = Some expiration →
  (expiration - timedelta_days (days a) < datetime_min)%Z →
  iam_sync_certs svc a live w = (Raise OverflowError, w).
Proof.
  intros He Hnames Hremote Hlow. unfold iam_sync_certs.
  rewrite He, Hnames. simpl. unfold sync_cert. rewrite Hremote.
  unfold datetime_minus_days.
  destruct (Z.abs (days a) <=? timedelta_max_days)%Z; [|done].
  by rewrite (proj2 (Z.leb_gt _ _) Hlow).
Qed.

(** ** Forced and idle runs *)

(** X16.  With the force flag set, a run that ends without an error has
    deleted and then uploaded every local certificate that has a remote
    entry, whatever its expiration is. *)
Theorem forced_certificate_replaced svc a live w' expires name :
  iam_sync_certs svc a live fresh = (Ok (), w') →
  certificate_expirations svc a None = Ok expires →
  name ∈ letsencrypt_certnames live →
  is_Some (expires !! name) →
  force a = true →
  calls_for name (calls w') = [Delete name; Upload name].
Proof.
  unfold iam_sync_certs. intros Hrun He Hname [e Hremote] Hforce.
  rewrite He in Hrun.
  pose proof (letsencrypt_certnames_NoDup live) as Hnd.
  apply list_elem_of_split in Hname as (pre & post & Hsplit).
  rewrite Hsplit in Hrun, Hnd.
  pose proof (sync_certs_calls_for _ _ _ _ _ _ _ Hrun Hnd) as Hcalls.
  by rewrite Hremote, Hforce, orb_true_r in Hcalls.
Qed.

Lemma forced_certificate_replaced_witness :
  iam_sync_certs (one_remote (timedelta_days 300))
    {| days := 30; force := true; livepath := "/etc/letsencrypt/live";
       path := "/cloudfront/" |} live_a_b fresh
  = (Ok (), {| calls := [Delete "a"; Upload "a"; Upload "b"];
               clock_reads := 1 |})
  ∧ calls_for "a" [Delete "a"; Upload "a"; Upload "b"]
    = [Delete "a"; Upload "a"].
Proof.
  split; [reflexivity|].
  assert (Ha : "a" ∈ letsencrypt_certnames live_a_b).
  { change ("a" ∈ ["a"; "b"]). left. }
  apply (forced_certificate_replaced (one_remote (timedelta_days 300))
           {| days := 30; force := true; livepath := "/etc/letsencrypt/live";
              path := "/cloudfront/" |} live_a_b
           {| calls := [Delete "a"; Upload "a"; Upload "b"];
              clock_reads := 1 |}
           _ "a" eq_refl eq_refl Ha); [by eexists|reflexivity].
Defined.

(** X17.  When every local certificate has a remote entry whose replace
    date (the expiration less the window) can be computed and lies after
    every reading of the clock, and the force flag is unset, the run ends
    without an error and without a single delete or upload; it has read
    the clock once per local name. *)
Theorem idle_run_issues_no_call svc a live expires :
  certificate_expirations svc a None = Ok expires →
  (∀ name, name ∈ letsencrypt_certnames live →
     ∃ expiration replacedate,
       expires !! name = Some expiration ∧
       datetime_minus_days expiration (days a) = Ok replacedate ∧
       ∀ k, (utcnow svc k < replacedate)%Z) →
  force a = false →
  iam_sync_certs svc a live fresh
  = (Ok (), {| calls := [];
               clock_reads := length (letsencrypt_certnames live) |}).
Proof.
  intros He Hall Hforce. unfold iam_sync_certs. rewrite He.
  rewrite (sync_certs_idle svc a expires); [done| |done].
  by apply Forall_forall.
Qed.

Lemma idle_run_issues_no_call_witness :
  iam_sync_certs (one_remote (timedelta_days 60)) default_args
    (<["a" := valid_dir]> ∅) fresh
  = (Ok (), {| calls := [];
               clock_reads := length (letsencrypt_certnames
                                        (<["a" := valid_dir]> ∅)) |}).
Proof.
  apply (idle_run_issues_no_call (one_remote (timedelta_days 60)) default_args
           (<["a" := valid_dir]> ∅) _ eq_refl); [|reflexivity].
  intros name Hname. change (name ∈ ["a"]) in Hname.
  apply list_elem_of_singleton in Hname as ->.
  exists (100 + timedelta_days 60)%Z, (100 + timedelta_days 30)%Z.
  split; [reflexivity|]. split; [reflexivity|].
  intros k. simpl. unfold timedelta_days. lia.
Defined.

End IamSyncMore.
